(** * The SPIRE agent's in-memory cache (pkg/agent/manager/cache/cache.go)

    A shallow embedding of the cache facade: the entry store, the trust
    bundle, the subscriber registry and the notification pass, together
    with the properties the design document states about them.

    Conventions of the embedding.
    - Go pointers to subscribers are addresses into a store of subscriber
      objects, so that a subscriber listed twice in one pass, or reachable
      both from the registry and from a caller, is one shared object.
    - A Go slice of certificates is a window on a backing array kept in a
      store of arrays; [Bundle] allocates, [SetBundle] stores the caller's
      window as it is.
    - An [*Entry] is an immutable value (the design document forbids
      changing an entry after insertion); maps are [gmap]s and their
      iteration order, unspecified in Go, is the one of [map_to_list].
    - The three mutexes are taken and released in a balanced way inside
      every method and are not represented: every method is one atomic
      step.  What may suspend or abort a goroutine is represented: a send
      on a full channel ([Blocked]) and a run-time panic ([Panic]). *)

From stdpp Require Import base gmap sets list strings ssreflect.

#[local] Set Warnings "-rewrite-rw,-clear-no-such-hyp".

(** * The model *)

(** ** Protocol types used by the cache (proto/common) *)

Module common.
(** Modelled from the spec: the generated protocol types are declared
    outside cache.go.  A selector is "an attribute/tag describing workload
    identity context", a (Type, Value) pair of strings. *)
Definition Selector : Type := string * string.

(** Modelled from the spec: the registration entry carries an "opaque
    registration-entry identity (stable, unique ID)" and "a set of
    selectors"; cache.go reads [EntryId] and [Selectors] only. *)
Record RegistrationEntry := mkRegistrationEntry {
  Selectors : list Selector;
  SpiffeId : string;
  EntryId : string
}.
End common.

(** [type Selectors []*common.Selector] *)
Abbreviation Selectors := (list common.Selector).

(** ** Selector sets (pkg/common/selector) *)

Module selector.
(** Modelled from the spec: the selector-set package is declared outside
    cache.go.  "A selector set is the unordered collection of such
    tags". *)
Definition NewSetFromRaw (raw : Selectors) : gset common.Selector :=
  list_to_set raw.

(** Modelled from the spec: membership of one selector in a set. *)
Definition Includes (s : gset common.Selector) (x : common.Selector) : bool :=
  bool_decide (x ∈ s).

(** Modelled from the spec: "selector set A covers selector set B iff
    every selector in B is present in A". *)
Definition IncludesSet (s s2 : gset common.Selector) : bool :=
  forallb (Includes s) (elements s2).
End selector.

(** ** Certificates and slices of certificates *)

(** An [*x509.Certificate] is opaque to the cache; it stands for itself. *)
Definition Certificate : Type := string.

Abbreviation loc := positive.

(** A slice [[]*x509.Certificate]: backing array, offset and length.  The
    nil slice has no backing array. *)
Record slice := Slice { base : option loc; off : nat; len : nat }.

Definition nil_slice : slice := Slice None 0 0.

Definition slice_read (h : gmap loc (list Certificate)) (s : slice)
  : list Certificate :=
  match base s with
  | None => []
  | Some l =>
      match h !! l with
      | Some a => take (len s) (drop (off s) a)
      | None => []
      end
  end.

(** [append(nil, s...)]: nothing is allocated for zero elements, otherwise
    the elements go to a new backing array. *)
Definition append_nil (h : gmap loc (list Certificate)) (s : slice)
  : gmap loc (list Certificate) * slice :=
  match slice_read h s with
  | [] => (h, nil_slice)
  | x :: xs =>
      let l := fresh (dom h) in
      (<[l := x :: xs]> h, Slice (Some l) 0 (length (x :: xs)))
  end.

(** [s[i] = v]; [None] is the index-out-of-range panic. *)
Definition slice_write (h : gmap loc (list Certificate)) (s : slice)
    (i : nat) (v : Certificate) : option (gmap loc (list Certificate)) :=
  if decide (i < len s) then
    match base s with
    | Some l =>
        match h !! l with
        | Some a => Some (<[l := <[off s + i := v]> a]> h)
        | None => None
        end
    | None => None
    end
  else None.

(** ** Entries, updates, channels, subscribers *)

Record Entry := mkEntry {
  RegistrationEntry : common.RegistrationEntry;
  SVID : Certificate;
  PrivateKey : string;
  Bundles : gmap string string
}.

(** Modelled from the spec: the type is declared outside cache.go.
    "WorkloadUpdate = { Entries: sequence of Entry, Bundle: sequence of
    certificates }", the two fields that cache.go fills. *)
Record WorkloadUpdate := mkWorkloadUpdate {
  Entries : list Entry;
  Bundle : slice
}.

(** A buffered channel of updates: queued values, capacity, closed flag. *)
Record chan := Chan {
  ch_buf : list WorkloadUpdate;
  ch_cap : nat;
  ch_closed : bool
}.

(** [make(chan *WorkloadUpdate, n)] *)
Definition make_chan (n : nat) : chan := Chan [] n false.

Abbreviation ptr := positive.

(** Modelled from the spec: the type is declared outside cache.go.  A
    subscriber has "a selector set describing what it wants to see, a
    single-slot delivery channel, a mutable active flag, and a lock
    protecting its own state"; these are the fields [sel], [c] and
    [active] that cache.go reads and writes (the lock is not
    represented). *)
Record subscriber := mkSubscriber {
  c : chan;
  sel : Selectors;
  active : bool
}.

Definition set_c (ch : chan) (s : subscriber) : subscriber :=
  mkSubscriber ch (sel s) (active s).

(** ** The cache object and the memory it lives in *)

Record cacheImpl := mkCache {
  cache : gmap string Entry;
  subscribers : gset ptr;
  bundle : slice
}.

Record world := World {
  self : cacheImpl;
  objs : gmap ptr subscriber;
  arrs : gmap loc (list Certificate)
}.

Definition set_self (f : cacheImpl → cacheImpl) (w : world) : world :=
  World (f (self w)) (objs w) (arrs w).

Definition set_objs (f : gmap ptr subscriber → gmap ptr subscriber)
    (w : world) : world :=
  World (self w) (f (objs w)) (arrs w).

(** ** Outcomes and the method monad *)

Inductive outcome (A : Type) : Type :=
| Done (a : A) (w : world)
| Blocked
| Panic.
Arguments Done {A} a w.
Arguments Blocked {A}.
Arguments Panic {A}.

Definition M (A : Type) : Type := world → outcome A.

Definition ret {A} (a : A) : M A := λ w, Done a w.

Definition bind {A B} (m : M A) (k : A → M B) : M B :=
  λ w, match m w with
       | Done a w' => k a w'
       | Blocked => Blocked
       | Panic => Panic
       end.

#[global] Instance M_ret : MRet M := @ret.

#[global] Instance M_bind : MBind M := λ A B k m, bind m k.

Definition gets {A} (f : world → A) : M A := λ w, Done (f w) w.
Definition modify (f : world → world) : M unit := λ w, Done tt (f w).
Definition panic {A} : M A := λ _, Panic.
Definition block {A} : M A := λ _, Blocked.

Fixpoint for_each {A} (f : A → M unit) (l : list A) : M unit :=
  match l with
  | [] => ret tt
  | x :: l' => f x;; for_each f l'
  end.

(** Dereferencing a subscriber pointer. *)
Definition load (p : ptr) : M subscriber :=
  λ w, match objs w !! p with
       | Some s => Done s w
       | None => Panic
       end.

Definition store (p : ptr) (s : subscriber) : M unit :=
  modify (set_objs (λ o, <[p := s]> o)).

(** ** Channel operations *)

(** [close(ch)]: closing a closed channel panics. *)
Definition close (ch : chan) : M chan :=
  if ch_closed ch then panic
  else ret (Chan (ch_buf ch) (ch_cap ch) true).

(** [ch <- v]: panics on a closed channel, cannot proceed on a full one. *)
Definition send (ch : chan) (v : WorkloadUpdate) : M chan :=
  if ch_closed ch then panic
  else if decide (length (ch_buf ch) < ch_cap ch)
       then ret (Chan (ch_buf ch ++ [v]) (ch_cap ch) false)
       else block.

(** A Go slice value built by repeated [append] to a nil slice: nil when
    nothing was appended. *)
Definition go_slice {A} (l : list A) : option (list A) :=
  match l with
  | [] => None
  | _ => Some l
  end.

(** ** The subscriber registry *)

Module Subscribers.
(** Modelled from the spec: the registry type [subscribers] is declared
    outside cache.go.  It is "a mapping owned exclusively by the cache,
    from subscriber identity to Subscriber"; the subscriber's identity is
    its address, so the registry is the set of registered addresses. *)
Definition NewSubscribers : gset ptr := ∅.

(** Modelled from the spec: "add(subscriber): registers a new
    subscriber". *)
Definition add (p : ptr) : M unit :=
  modify (set_self (λ s, mkCache (cache s) ({[p]} ∪ subscribers s) (bundle s))).

(** Modelled from the spec: "remove(subscriber): deregisters;
    idempotent". *)
Definition remove (p : ptr) : M unit :=
  modify (set_self (λ s, mkCache (cache s) (subscribers s ∖ {[p]}) (bundle s))).

(** Modelled from the spec: "getAll() -> sequence of Subscriber". *)
Definition getAll : M (option (list ptr)) :=
  gets (λ w, go_slice (elements (subscribers (self w)))).

(** Modelled from the spec: a subscriber is "interested in an entry
    carrying that selector set" when its own selector set covers it, the
    test being "computed on demand via the matcher, not pre-indexed". *)
Definition interested (o : gmap ptr subscriber) (sels : Selectors) (p : ptr)
  : bool :=
  match o !! p with
  | Some s =>
      selector.IncludesSet (selector.NewSetFromRaw (sel s))
                           (selector.NewSetFromRaw sels)
  | None => false
  end.

(** Modelled from the spec: "get(selectorSet) -> sequence of Subscriber:
    returns every registered subscriber [...] interested in an entry
    carrying that selector set". *)
Definition get (sels : Selectors) : M (option (list ptr)) :=
  gets (λ w, go_slice (List.filter (interested (objs w) sels)
                                   (elements (subscribers (self w))))).
End Subscribers.

(** ** cache.go *)

Fixpoint subscriberEntries (sub : subscriber) (entries : list Entry)
  : list Entry :=
  match entries with
  | [] => []
  | e :: rest =>
      let regEntrySelectors :=
        selector.NewSetFromRaw (common.Selectors (RegistrationEntry e)) in
      if selector.IncludesSet (selector.NewSetFromRaw (sel sub)) regEntrySelectors
      then e :: subscriberEntries sub rest
      else subscriberEntries sub rest
  end.

Module Cache.

Definition New (bundle : slice) : cacheImpl :=
  mkCache ∅ Subscribers.NewSubscribers bundle.

Definition Bundle : M slice :=
  λ w, let '(h, result) := append_nil (arrs w) (bundle (self w)) in
       Done result (World (self w) (objs w) h).

Definition Entries : M (list Entry) :=
  gets (λ w, (map_to_list (cache (self w))).*2).

Definition IsEmpty : M bool :=
  gets (λ w, bool_decide (size (cache (self w)) = 0)).

(** The body of the loop of [notifySubscribers], for one subscriber. *)
Definition notifyOne (entries : list Entry) (bundle : slice) (p : ptr)
  : M unit :=
  sub ← load p;
  if negb (active sub) then Subscribers.remove p
  else
    ch ← (if decide (0 < length (ch_buf (c sub)))
          then (close (c sub);; ret (make_chan 1))
          else ret (c sub));
    let subEntries := subscriberEntries sub entries in
    ch' ← send ch (mkWorkloadUpdate subEntries bundle);
    store p (set_c ch' sub).

Definition notifySubscribers (subs : option (list ptr)) : M unit :=
  match subs with
  | None => ret tt
  | Some l =>
      entries ← Entries;
      bundle ← Bundle;
      for_each (notifyOne entries bundle) l
  end.

Definition SetBundle (b : slice) : M unit :=
  modify (set_self (λ s, mkCache (cache s) (subscribers s) b));;
  subs ← Subscribers.getAll;
  notifySubscribers subs.

Definition Subscribe (sub : ptr) : M unit :=
  Subscribers.add sub;;
  notifySubscribers (Some [sub]).

Definition SetEntry (entry : Entry) : M unit :=
  modify (set_self (λ s,
    mkCache (<[common.EntryId (RegistrationEntry entry) := entry]> (cache s))
            (subscribers s) (bundle s)));;
  subs ← Subscribers.get (common.Selectors (RegistrationEntry entry));
  notifySubscribers subs.

Definition DeleteEntry (regEntry : common.RegistrationEntry) : M bool :=
  found ← gets (λ w, cache (self w) !! common.EntryId regEntry);
  match found with
  | Some entry =>
      subs ← Subscribers.get (common.Selectors (RegistrationEntry entry));
      modify (set_self (λ s,
        mkCache (delete (common.EntryId regEntry) (cache s))
                (subscribers s) (bundle s)));;
      notifySubscribers subs;;
      ret true
  | None => ret false
  end.

Definition Entry (regEntry : common.RegistrationEntry) : M (option Entry) :=
  gets (λ w, cache (self w) !! common.EntryId regEntry).

End Cache.

(** ** Well-formed states *)

(** A delivery channel as the subscriber constructor makes it: one slot,
    open, holding at most what its capacity allows. *)
Definition chan_ok (ch : chan) : Prop :=
  ch_cap ch = 1 ∧ ch_closed ch = false ∧ length (ch_buf ch) ≤ 1.

Definition subs_ok (o : gmap ptr subscriber) : Prop :=
  map_Forall (λ _ s, chan_ok (c s)) o.

(** Every stored entry sits under its own identifier. *)
Definition keys_ok (m : gmap string Entry) : Prop :=
  map_Forall (λ k e, common.EntryId (RegistrationEntry e) = k) m.

Definition world_ok (w : world) : Prop :=
  keys_ok (cache (self w)) ∧ subs_ok (objs w) ∧
  subscribers (self w) ⊆ dom (objs w).

#[global] Instance chan_ok_dec ch : Decision (chan_ok ch).
Proof. unfold chan_ok. apply _. Defined.

#[global] Instance subs_ok_dec o : Decision (subs_ok o).
Proof. unfold subs_ok. apply _. Defined.

#[global] Instance keys_ok_dec m : Decision (keys_ok m).
Proof. unfold keys_ok. apply _. Defined.

#[global] Instance world_ok_dec w : Decision (world_ok w).
Proof. unfold world_ok. apply _. Defined.

(** ** What a pass does, as a pure function *)

(** The subscriber after a delivery: its channel holds the fresh update
    and nothing else. *)
Definition delivered (entries : list Entry) (b : slice) (s : subscriber)
  : subscriber :=
  set_c (Chan [mkWorkloadUpdate (subscriberEntries s entries) b] 1 false) s.

Definition pass_one (entries : list Entry) (b : slice) (w : world) (p : ptr)
  : world :=
  match objs w !! p with
  | Some s =>
      if active s
      then set_objs (λ o, <[p := delivered entries b s]> o) w
      else set_self (λ s, mkCache (cache s) (subscribers s ∖ {[p]}) (bundle s)) w
  | None => w
  end.

Definition pass (entries : list Entry) (b : slice) (l : list ptr) (w : world)
  : world :=
  foldl (pass_one entries b) w l.

(** The state in which the loop of a pass starts: the copy of the bundle
    has been allocated. *)
Definition snapshot_world (w : world) : world :=
  World (self w) (objs w) (append_nil (arrs w) (bundle (self w))).1.

Definition snapshot_bundle (w : world) : slice :=
  (append_nil (arrs w) (bundle (self w))).2.

Definition snapshot_entries (w : world) : list Entry :=
  (map_to_list (cache (self w))).*2.

Definition is_inactive (o : gmap ptr subscriber) (p : ptr) : bool :=
  match o !! p with
  | Some s => negb (active s)
  | None => false
  end.

(** What a pass over the targets [l] makes of the subscriber at [q]. *)
Definition touch (entries : list Entry) (b : slice) (l : list ptr) (q : ptr)
    (s : subscriber) : subscriber :=
  if decide (q ∈ l) then (if active s then delivered entries b s else s) else s.

(** ** Callers of the cache *)

Module Consumer.
(** Modelled from the spec: the subscriber constructor is declared outside
    cache.go.  A subscriber is "created on Subscribe" with "a single-slot
    delivery channel" and is active. *)
Definition NewSubscriber (selectors : Selectors) : M ptr :=
  λ w, let p := fresh (dom (objs w)) in
       Done p (set_objs
                 (λ o, <[p := mkSubscriber (make_chan 1) selectors true]> o) w).

(** Modelled from the spec: "a subscriber signals disinterest by flipping
    its active flag". *)
Definition deactivate (p : ptr) : M unit :=
  sub ← load p;
  store p (mkSubscriber (c sub) (sel sub) false).

(** Modelled from the spec: the consumer draining its channel; a receive
    on an empty channel cannot proceed. *)
Definition receive (p : ptr) : M WorkloadUpdate :=
  sub ← load p;
  match ch_buf (c sub) with
  | u :: rest =>
      store p (set_c (Chan rest (ch_cap (c sub)) (ch_closed (c sub))) sub);;
      ret u
  | [] => block
  end.
End Consumer.

(** One step of the system: a call of the writer on the facade, or a step
    of a consumer. *)
Inductive call :=
| CallSetBundle (b : slice)
| CallSetEntry (e : Entry)
| CallDeleteEntry (r : common.RegistrationEntry)
| CallSubscribe (p : ptr)
| CallNewSubscriber (selectors : Selectors)
| CallDeactivate (p : ptr)
| CallReceive (p : ptr).

Definition exec (k : call) : M unit :=
  match k with
  | CallSetBundle b => Cache.SetBundle b
  | CallSetEntry e => Cache.SetEntry e
  | CallDeleteEntry r => Cache.DeleteEntry r;; ret tt
  | CallSubscribe p => Cache.Subscribe p
  | CallNewSubscriber selectors => Consumer.NewSubscriber selectors;; ret tt
  | CallDeactivate p => Consumer.deactivate p
  | CallReceive p => Consumer.receive p;; ret tt
  end.

(** [steps ks w w']: the calls [ks], in this order, all return and lead
    from [w] to [w']. *)
Inductive steps : list call → world → world → Prop :=
| steps_nil w : steps [] w w
| steps_cons k ks w w1 w2 :
    exec k w = Done tt w1 → steps ks w1 w2 → steps (k :: ks) w w2.

(** A call that stores an entry under the identifier [id]. *)
Definition sets_id (id : string) (k : call) : Prop :=
  match k with
  | CallSetEntry e => common.EntryId (RegistrationEntry e) = id
  | _ => False
  end.

(** The calls that run a notification pass. *)
Definition runs_pass (k : call) : Prop :=
  match k with
  | CallSetBundle _ | CallSetEntry _ | CallDeleteEntry _ | CallSubscribe _ => True
  | CallNewSubscriber _ | CallDeactivate _ | CallReceive _ => False
  end.

(** The targets of a pass are allocated subscribers. *)
Definition targets_ok (l : list ptr) (w : world) : Prop :=
  Forall (λ q, is_Some (objs w !! q)) l.

#[global] Instance targets_ok_dec l w : Decision (targets_ok l w).
Proof. unfold targets_ok. apply _. Defined.

(** ** The facade methods in closed form *)

Definition notified (subs : option (list ptr)) (w : world) : world :=
  match subs with
  | Some l => pass (snapshot_entries w) (snapshot_bundle w) l (snapshot_world w)
  | None => w
  end.

Definition with_bundle (b : slice) (w : world) : world :=
  set_self (λ s, mkCache (cache s) (subscribers s) b) w.

Definition with_entry (e : Entry) (w : world) : world :=
  set_self (λ s, mkCache (<[common.EntryId (RegistrationEntry e) := e]> (cache s))
                         (subscribers s) (bundle s)) w.

Definition without_entry (id : string) (w : world) : world :=
  set_self (λ s, mkCache (delete id (cache s)) (subscribers s) (bundle s)) w.

Definition with_sub (p : ptr) (w : world) : world :=
  set_self (λ s, mkCache (cache s) ({[p]} ∪ subscribers s) (bundle s)) w.

Definition all_subs (w : world) : option (list ptr) :=
  go_slice (elements (subscribers (self w))).

Definition subs_for (sels : Selectors) (w : world) : option (list ptr) :=
  go_slice (List.filter (Subscribers.interested (objs w) sels)
                        (elements (subscribers (self w)))).

(** ** A concrete cache *)

Definition ex_E1 : Entry :=
  mkEntry (common.mkRegistrationEntry [("unix", "a")] "spiffe://example.org/e1" "E1")
          "svid-1" "key-1" ∅.

Definition ex_E1' : Entry :=
  mkEntry (common.mkRegistrationEntry [("unix", "a")] "spiffe://example.org/e1" "E1")
          "svid-2" "key-2" ∅.

Definition ex_E2 : Entry :=
  mkEntry (common.mkRegistrationEntry [("unix", "x")] "spiffe://example.org/e2" "E2")
          "svid-3" "key-3" ∅.

Definition ex_sub : subscriber :=
  mkSubscriber (make_chan 1) [("unix", "a"); ("unix", "b")] true.

Definition ex_gone : subscriber :=
  mkSubscriber (make_chan 1) [("unix", "x")] false.

Definition ex_bundle : slice := Slice (Some 7%positive) 0 2.

Definition ex_rotated : slice := Slice (Some 7%positive) 1 1.

Definition ex_world : world :=
  World (mkCache {["E1" := ex_E1; "E2" := ex_E2]} {[1%positive; 2%positive]} ex_bundle)
        {[1%positive := ex_sub; 2%positive := ex_gone]}
        {[7%positive := ["root-1"; "root-2"]]}.

(** The same cache with a second active subscriber, whose channel holds
    an update that nobody has received yet. *)
Definition ex_peer : subscriber :=
  mkSubscriber (Chan [mkWorkloadUpdate [] nil_slice] 1 false)
               [("unix", "a")] true.

Definition ex_world2 : world :=
  set_objs (λ o, <[3%positive := ex_peer]> o) ex_world.

(** The state after a sequence of calls, when all of them return. *)
Definition after (ks : list call) (w : world) : option world :=
  match for_each exec ks w with
  | Done _ w' => Some w'
  | Blocked | Panic => None
  end.

(** What is pending in the channel of the subscriber at [p]: for each
    update its entries and the certificates its bundle reads as. *)
Definition pending (w : world) (p : ptr)
  : option (list (list Entry * list Certificate)) :=
  (λ s, (λ u, (Entries u, slice_read (arrs w) (Bundle u))) <$> ch_buf (c s))
    <$> objs w !! p.

(** An empty cache without bundle, next to an array of one certificate. *)
Definition ex_start : world :=
  World (Cache.New nil_slice) ∅ {[7%positive := ["cert1"]]}.

(** * Properties *)

Ltac run_monad :=
  unfold mbind, M_bind, bind, mret, M_ret, ret, gets, modify, panic, block,
    load, store, close, send in *; simpl in *.

Ltac by_compute :=
  match goal with
  | |- ?P => apply (@bool_decide_unpack P _); vm_compute; exact I
  end.

(** ** Selector sets *)

Lemma IncludesSet_spec (s s2 : gset common.Selector) :
  selector.IncludesSet s s2 = true ↔ s2 ⊆ s.
Proof.
  unfold selector.IncludesSet, selector.Includes.
  rewrite forallb_forall. split.
  - intros H x Hx. specialize (H x).
    rewrite bool_decide_eq_true in H. apply H.
    by apply list_elem_of_In, elem_of_elements.
  - intros H x Hx%list_elem_of_In%elem_of_elements.
    rewrite bool_decide_eq_true. by apply H.
Qed.

Lemma covers_spec (S E : Selectors) :
  selector.IncludesSet (selector.NewSetFromRaw S) (selector.NewSetFromRaw E)
    = true ↔ ∀ x, x ∈ E → x ∈ S.
Proof.
  rewrite IncludesSet_spec. unfold selector.NewSetFromRaw. split.
  - intros H x Hx. apply (elem_of_list_to_set (C:=gset _)), H.
    by apply elem_of_list_to_set.
  - intros H x Hx%elem_of_list_to_set. apply elem_of_list_to_set. auto.
Qed.

Lemma elem_of_subscriberEntries sub entries e :
  e ∈ subscriberEntries sub entries ↔
  e ∈ entries ∧
  selector.IncludesSet (selector.NewSetFromRaw (sel sub))
    (selector.NewSetFromRaw (common.Selectors (RegistrationEntry e))) = true.
Proof.
  induction entries as [|e' rest IHr]; simpl.
  - rewrite elem_of_nil. tauto.
  - destruct (selector.IncludesSet _
                (selector.NewSetFromRaw (common.Selectors (RegistrationEntry e'))))
      eqn:Hinc.
    + rewrite !elem_of_cons IHr. split.
      * intros [->|[? ?]]; auto.
      * intros [[->|?] ?]; auto.
    + rewrite elem_of_cons IHr. split.
      * intros [? ?]; auto.
      * intros [[->|?] ?]; [congruence | auto].
Qed.

Lemma subscriberEntries_sel s s' entries :
  sel s = sel s' → subscriberEntries s entries = subscriberEntries s' entries.
Proof.
  intros Hs. induction entries as [|e rest IHr]; simpl; [done|].
  by rewrite Hs IHr.
Qed.

Lemma delivered_idem entries b s :
  delivered entries b (delivered entries b s) = delivered entries b s.
Proof.
  unfold delivered, set_c; simpl. f_equal. f_equal. f_equal. f_equal.
  by apply subscriberEntries_sel.
Qed.

(** ** Slices *)

Lemma append_nil_read h s :
  slice_read (append_nil h s).1 (append_nil h s).2 = slice_read h s.
Proof.
  unfold append_nil. destruct (slice_read h s) as [|x xs] eqn:Hr; simpl.
  - done.
  - unfold slice_read; simpl. rewrite lookup_insert_eq. simpl.
    by rewrite firstn_all.
Qed.

Lemma append_nil_fresh h s l :
  base (append_nil h s).2 = Some l → h !! l = None.
Proof.
  unfold append_nil. destruct (slice_read h s) as [|x xs]; simpl; [done|].
  intros [= <-]. apply not_elem_of_dom, is_fresh.
Qed.

Lemma append_nil_subseteq h s : h ⊆ (append_nil h s).1.
Proof.
  unfold append_nil. destruct (slice_read h s) as [|x xs]; simpl; [done|].
  apply insert_subseteq, not_elem_of_dom, is_fresh.
Qed.

(** Slices that were readable before an allocation read the same after. *)
Lemma slice_read_mono h h' (s : slice) l :
  h ⊆ h' → base s = Some l → is_Some (h !! l) →
  slice_read h' s = slice_read h s.
Proof.
  intros Hsub Hb [a Ha]. unfold slice_read. rewrite Hb Ha.
  by rewrite (lookup_weaken _ _ _ _ Ha Hsub).
Qed.

Lemma append_nil_keeps h s :
  slice_read (append_nil h s).1 s = slice_read h s.
Proof.
  destruct (base s) as [l|] eqn:Hb; last by rewrite /slice_read Hb.
  destruct (h !! l) as [a|] eqn:Ha.
  - eapply slice_read_mono; eauto using append_nil_subseteq.
  - assert (slice_read h s = []) as Hnil by by rewrite /slice_read Hb Ha.
    by rewrite /append_nil Hnil.
Qed.

(** ** The notification pass *)

Lemma notifyOne_pass entries b p w s :
  objs w !! p = Some s → chan_ok (c s) →
  Cache.notifyOne entries b p w = Done tt (pass_one entries b w p).
Proof.
  intros Hp (Hcap & Hopen & Hlen).
  unfold Cache.notifyOne, pass_one, Subscribers.remove. run_monad.
  rewrite Hp. destruct (active s); simpl; [|done].
  case_decide as Hbuf; simpl.
  - rewrite Hopen; simpl. done.
  - rewrite Hopen; simpl. rewrite Hcap.
    destruct (ch_buf (c s)) as [|u us] eqn:Hb; simpl in *; [|lia].
    unfold delivered, set_c. destruct s as [[buf cap cl] ss act]; simpl in *.
    by subst.
Qed.

Lemma pass_one_cache entries b w p :
  cache (self (pass_one entries b w p)) = cache (self w).
Proof. unfold pass_one. by repeat case_match. Qed.

Lemma pass_one_bundle entries b w p :
  bundle (self (pass_one entries b w p)) = bundle (self w).
Proof. unfold pass_one. by repeat case_match. Qed.

Lemma pass_one_arrs entries b w p :
  arrs (pass_one entries b w p) = arrs w.
Proof. unfold pass_one. by repeat case_match. Qed.

Lemma pass_one_objs entries b w p q :
  objs (pass_one entries b w p) !! q = touch entries b [p] q <$> objs w !! q.
Proof.
  unfold pass_one, touch.
  destruct (objs w !! p) as [s|] eqn:Hp.
  - destruct (active s) eqn:Ha; simpl.
    + destruct (decide (q = p)) as [->|Hne].
      * rewrite lookup_insert_eq Hp /=. rewrite decide_True; [|set_solver].
        by rewrite Ha.
      * rewrite lookup_insert_ne //. destruct (objs w !! q); simpl; [|done].
        rewrite decide_False; [done|set_solver].
    + destruct (objs w !! q) as [s'|] eqn:Hq; simpl; [|done].
      case_decide as Hin; [|done].
      assert (q = p) as -> by set_solver. simplify_eq. by rewrite Ha.
  - destruct (objs w !! q) as [s'|] eqn:Hq; simpl; [|done].
    case_decide as Hin; [|done].
    assert (q = p) as -> by set_solver. congruence.
Qed.

Lemma pass_one_subscribers entries b w p q :
  q ∈ subscribers (self (pass_one entries b w p)) ↔
  q ∈ subscribers (self w) ∧ ¬ (q = p ∧ is_inactive (objs w) q = true).
Proof.
  unfold pass_one, is_inactive.
  destruct (objs w !! p) as [s|] eqn:Hp.
  - destruct (active s) eqn:Ha; simpl.
    + split; [|tauto]. intros Hq. split; [done|]. intros [-> Hi].
      rewrite Hp Ha in Hi. done.
    + rewrite elem_of_difference elem_of_singleton. split.
      * intros [? ?]. tauto.
      * intros [? Hn]. split; [done|]. intros ->. apply Hn.
        by rewrite Hp Ha.
  - split; [|tauto]. intros Hq. split; [done|]. intros [-> Hi].
    by rewrite Hp in Hi.
Qed.

Lemma pass_nil entries b w : pass entries b [] w = w.
Proof. done. Qed.

Lemma pass_cons entries b p l w :
  pass entries b (p :: l) w = pass entries b l (pass_one entries b w p).
Proof. done. Qed.

Lemma pass_cache entries b l w :
  cache (self (pass entries b l w)) = cache (self w).
Proof.
  revert w. induction l as [|p l IHl]; intros w; [done|].
  by rewrite pass_cons IHl pass_one_cache.
Qed.

Lemma pass_bundle entries b l w :
  bundle (self (pass entries b l w)) = bundle (self w).
Proof.
  revert w. induction l as [|p l IHl]; intros w; [done|].
  by rewrite pass_cons IHl pass_one_bundle.
Qed.

Lemma pass_arrs entries b l w :
  arrs (pass entries b l w) = arrs w.
Proof.
  revert w. induction l as [|p l IHl]; intros w; [done|].
  by rewrite pass_cons IHl pass_one_arrs.
Qed.

Lemma touch_active entries b l q s : active (touch entries b l q s) = active s.
Proof. unfold touch. by repeat case_match. Qed.

Lemma touch_cons entries b p l q s :
  touch entries b l q (touch entries b [p] q s) = touch entries b (p :: l) q s.
Proof.
  unfold touch.
  destruct (decide (q ∈ [p])) as [Hp|Hp], (decide (q ∈ l)) as [Hl|Hl],
    (active s) eqn:Ha; simpl; rewrite ?Ha;
    try (rewrite decide_True; [|set_solver]);
    try (rewrite decide_False; [|set_solver]);
    rewrite ?Ha ?delivered_idem //.
Qed.

Lemma pass_objs entries b l w q :
  objs (pass entries b l w) !! q = touch entries b l q <$> objs w !! q.
Proof.
  revert w. induction l as [|p l IHl]; intros w.
  - rewrite pass_nil. destruct (objs w !! q) as [s|]; simpl; [|done].
    unfold touch. case_decide as Hin; [|done]. by apply elem_of_nil in Hin.
  - rewrite pass_cons IHl pass_one_objs.
    destruct (objs w !! q) as [s|]; simpl; [|done].
    by rewrite touch_cons.
Qed.

Lemma pass_one_inactive entries b w p q :
  is_inactive (objs (pass_one entries b w p)) q = is_inactive (objs w) q.
Proof.
  unfold is_inactive. rewrite pass_one_objs.
  destruct (objs w !! q); simpl; [|done]. by rewrite touch_active.
Qed.

Lemma pass_subscribers entries b l w q :
  q ∈ subscribers (self (pass entries b l w)) ↔
  q ∈ subscribers (self w) ∧ ¬ (q ∈ l ∧ is_inactive (objs w) q = true).
Proof.
  revert w. induction l as [|p l IHl]; intros w.
  - rewrite pass_nil. set_solver.
  - rewrite pass_cons IHl pass_one_subscribers pass_one_inactive.
    rewrite elem_of_cons. tauto.
Qed.

Lemma touch_chan_ok entries b l q s :
  chan_ok (c s) → chan_ok (c (touch entries b l q s)).
Proof.
  intros Hok. unfold touch. repeat case_match; done.
Qed.

Lemma pass_one_subs_ok entries b w p :
  subs_ok (objs w) → subs_ok (objs (pass_one entries b w p)).
Proof.
  intros Hok q s. rewrite pass_one_objs.
  destruct (objs w !! q) as [s'|] eqn:Hq; simpl; [|done].
  intros [= <-]. apply touch_chan_ok. by eapply Hok.
Qed.

Lemma for_each_pass entries b l w :
  subs_ok (objs w) → (∀ p, p ∈ l → is_Some (objs w !! p)) →
  for_each (Cache.notifyOne entries b) l w = Done tt (pass entries b l w).
Proof.
  revert w. induction l as [|p l IHl]; intros w Hok Hdom; [done|].
  destruct (Hdom p) as [s Hp]; [set_solver|].
  simpl. unfold mbind, M_bind, bind.
  rewrite (notifyOne_pass _ _ _ _ s) //; last by eapply Hok.
  apply IHl.
  - by apply pass_one_subs_ok.
  - intros q Hq. rewrite pass_one_objs.
    destruct (Hdom q) as [s' ->]; [set_solver|]. by eexists.
Qed.

(** A pass returns, and its result is the pure [pass] over the snapshot. *)
Lemma notifySubscribers_pass l w :
  subs_ok (objs w) → (∀ p, p ∈ l → is_Some (objs w !! p)) →
  Cache.notifySubscribers (Some l) w =
    Done tt (pass (snapshot_entries w) (snapshot_bundle w) l (snapshot_world w)).
Proof.
  intros Hok Hdom. unfold Cache.notifySubscribers, Cache.Entries, Cache.Bundle.
  unfold mbind, M_bind, bind, gets.
  unfold snapshot_entries, snapshot_bundle, snapshot_world.
  destruct (append_nil (arrs w) (bundle (self w))) as [h r] eqn:Happ; simpl.
  by apply for_each_pass.
Qed.

Lemma targets_ok_spec l w :
  targets_ok l w ↔ ∀ p, p ∈ l → is_Some (objs w !! p).
Proof. apply Forall_forall. Qed.

Lemma elem_of_snapshot_entries w e :
  e ∈ snapshot_entries w ↔ ∃ k, cache (self w) !! k = Some e.
Proof.
  unfold snapshot_entries. rewrite list_elem_of_fmap. split.
  - intros [[k e'] [-> Hin%elem_of_map_to_list]]. by exists k.
  - intros [k Hk]. exists (k, e). split; [done|]. by apply elem_of_map_to_list.
Qed.

Lemma snapshot_world_ok w : world_ok w → world_ok (snapshot_world w).
Proof. done. Qed.

Lemma pass_dom entries b l w q :
  is_Some (objs (pass entries b l w) !! q) ↔ is_Some (objs w !! q).
Proof. rewrite pass_objs. apply fmap_is_Some. Qed.

Lemma pass_subs_ok entries b l w :
  subs_ok (objs w) → subs_ok (objs (pass entries b l w)).
Proof.
  intros Hok q s. rewrite pass_objs.
  destruct (objs w !! q) as [s'|] eqn:Hq; simpl; [|done].
  intros [= <-]. apply touch_chan_ok. by eapply Hok.
Qed.

Lemma pass_world_ok entries b l w :
  world_ok w → world_ok (pass entries b l w).
Proof.
  intros (Hk & Hs & Hr). split_and!.
  - by rewrite pass_cache.
  - by apply pass_subs_ok.
  - intros q [Hq _]%pass_subscribers. apply elem_of_dom, pass_dom, elem_of_dom.
    by apply Hr.
Qed.

(** Under the state invariant every pass over registered or allocated
    targets returns. *)
Lemma notifySubscribers_ok subs w :
  subs_ok (objs w) → (∀ l, subs = Some l → targets_ok l w) →
  ∃ w', Cache.notifySubscribers subs w = Done tt w' ∧
        w' = match subs with
             | Some l => pass (snapshot_entries w) (snapshot_bundle w) l
                              (snapshot_world w)
             | None => w
             end.
Proof.
  intros Hok Ht. destruct subs as [l|]; [|by eexists].
  eexists. split; [|done]. apply notifySubscribers_pass; [done|].
  by apply targets_ok_spec, Ht.
Qed.

Lemma go_slice_elem {A} (l l' : list A) x :
  go_slice l = Some l' → x ∈ l' ↔ x ∈ l.
Proof. destruct l; simpl; [done|]. by intros [= <-]. Qed.

Lemma getAll_targets w l :
  subscribers (self w) ⊆ dom (objs w) →
  go_slice (elements (subscribers (self w))) = Some l → targets_ok l w.
Proof.
  intros Hr Hl. apply targets_ok_spec. intros p Hp.
  apply elem_of_dom, Hr, elem_of_elements. by rewrite -(go_slice_elem _ _ _ Hl).
Qed.

Lemma get_targets w sels l :
  subscribers (self w) ⊆ dom (objs w) →
  go_slice (List.filter (Subscribers.interested (objs w) sels)
              (elements (subscribers (self w)))) = Some l →
  targets_ok l w.
Proof.
  intros Hr Hl. apply targets_ok_spec. intros p Hp.
  rewrite (go_slice_elem _ _ _ Hl) in Hp.
  apply list_elem_of_In, filter_In in Hp as [Hp%list_elem_of_In _].
  by apply elem_of_dom, Hr, elem_of_elements.
Qed.

Lemma notifySubscribers_notified subs w :
  subs_ok (objs w) → (∀ l, subs = Some l → targets_ok l w) →
  Cache.notifySubscribers subs w = Done tt (notified subs w).
Proof.
  intros Hok Ht. destruct (notifySubscribers_ok subs w Hok Ht) as (w' & -> & ->).
  done.
Qed.

Lemma notified_cache subs w : cache (self (notified subs w)) = cache (self w).
Proof. destruct subs; simpl; [|done]. by rewrite pass_cache. Qed.

Lemma notified_bundle subs w : bundle (self (notified subs w)) = bundle (self w).
Proof. destruct subs; simpl; [|done]. by rewrite pass_bundle. Qed.

Lemma notified_world_ok subs w : world_ok w → world_ok (notified subs w).
Proof.
  destruct subs; simpl; [|done]. intros H.
  by apply pass_world_ok, snapshot_world_ok.
Qed.

Lemma notified_subscribers subs w q :
  q ∈ subscribers (self (notified subs w)) ↔
  q ∈ subscribers (self w) ∧
  ¬ (∃ l, subs = Some l ∧ q ∈ l ∧ is_inactive (objs w) q = true).
Proof.
  destruct subs as [l|]; simpl.
  - rewrite pass_subscribers. simpl. split.
    + intros [? Hn]. split; [done|]. intros (l' & [= <-] & ? & ?). tauto.
    + intros [? Hn]. split; [done|]. intros [? ?]. apply Hn. eauto.
  - split; [|tauto]. intros ?. split; [done|]. by intros (l & ? & _).
Qed.

(** A targeted active subscriber ends the pass with exactly the fresh
    update in its channel. *)
Lemma notified_active l w p s :
  p ∈ l → objs w !! p = Some s → active s = true →
  objs (notified (Some l) w) !! p =
    Some (delivered (snapshot_entries w) (snapshot_bundle w) s).
Proof.
  intros Hin Hp Ha. simpl. rewrite pass_objs. simpl. rewrite Hp. simpl.
  unfold touch. rewrite decide_True //. by rewrite Ha.
Qed.

(** Every other subscriber is left as it was. *)
Lemma notified_other subs w p s :
  objs w !! p = Some s →
  (active s = false ∨ ∀ l, subs = Some l → p ∉ l) →
  objs (notified subs w) !! p = Some s.
Proof.
  intros Hp Hcase. destruct subs as [l|]; simpl; [|done].
  rewrite pass_objs. simpl. rewrite Hp. simpl. unfold touch.
  destruct Hcase as [Ha|Hn].
  - rewrite Ha. by case_decide.
  - rewrite decide_False //. by apply Hn.
Qed.

Lemma SetBundle_run b w :
  world_ok w →
  Cache.SetBundle b w
  = Done tt (notified (all_subs (with_bundle b w)) (with_bundle b w)).
Proof.
  intros (Hk & Hs & Hr). unfold Cache.SetBundle, Subscribers.getAll.
  unfold mbind, M_bind, bind, modify, gets.
  apply notifySubscribers_notified; [done|].
  intros l Hl. by apply getAll_targets.
Qed.

Lemma SetEntry_run e w :
  world_ok w →
  Cache.SetEntry e w
  = Done tt (notified (subs_for (common.Selectors (RegistrationEntry e))
                                (with_entry e w)) (with_entry e w)).
Proof.
  intros (Hk & Hs & Hr). unfold Cache.SetEntry, Subscribers.get.
  unfold mbind, M_bind, bind, modify, gets.
  apply notifySubscribers_notified; [done|].
  intros l Hl. by eapply get_targets.
Qed.

Lemma DeleteEntry_found r e w :
  world_ok w → cache (self w) !! common.EntryId r = Some e →
  Cache.DeleteEntry r w
  = Done true (notified (subs_for (common.Selectors (RegistrationEntry e)) w)
                        (without_entry (common.EntryId r) w)).
Proof.
  intros (Hk & Hs & Hr) He. unfold Cache.DeleteEntry, Subscribers.get.
  unfold mbind, M_bind, bind, modify, gets, mret, M_ret, ret.
  rewrite He. unfold mbind, M_bind, bind, modify, gets, mret, M_ret, ret.
  rewrite notifySubscribers_notified //.
  intros l Hl. by eapply (get_targets w).
Qed.

Lemma DeleteEntry_missing r w :
  cache (self w) !! common.EntryId r = None →
  Cache.DeleteEntry r w = Done false w.
Proof.
  intros He. unfold Cache.DeleteEntry.
  unfold mbind, M_bind, bind, gets. by rewrite He.
Qed.

Lemma Subscribe_run p w :
  subs_ok (objs w) → is_Some (objs w !! p) →
  Cache.Subscribe p w = Done tt (notified (Some [p]) (with_sub p w)).
Proof.
  intros Hs Hp. unfold Cache.Subscribe, Subscribers.add.
  unfold mbind, M_bind, bind, modify.
  apply notifySubscribers_notified; [done|].
  intros l [= <-]. apply targets_ok_spec. intros q Hq.
  apply list_elem_of_singleton in Hq as ->. done.
Qed.

Lemma Subscribe_dangling p w :
  objs w !! p = None → Cache.Subscribe p w = Panic.
Proof.
  intros Hp. unfold Cache.Subscribe, Subscribers.add, Cache.notifySubscribers.
  unfold Cache.Entries, Cache.Bundle, mbind, M_bind, bind, modify, gets.
  simpl. destruct (append_nil _ _) as [h r]. simpl.
  unfold Cache.notifyOne, mbind, M_bind, bind, load. simpl. by rewrite Hp.
Qed.

(** ** The state invariant along calls *)

Lemma with_entry_ok e w : world_ok w → world_ok (with_entry e w).
Proof.
  intros (Hk & Hs & Hr). split_and!; [|done..]. simpl.
  by apply map_Forall_insert_2.
Qed.

Lemma without_entry_ok id w : world_ok w → world_ok (without_entry id w).
Proof.
  intros (Hk & Hs & Hr). split_and!; [|done..]. simpl.
  by apply map_Forall_delete.
Qed.

Lemma with_sub_ok p w :
  world_ok w → is_Some (objs w !! p) → world_ok (with_sub p w).
Proof.
  intros (Hk & Hs & Hr) Hp. split_and!; [done..|]. simpl.
  apply elem_of_dom in Hp. set_solver.
Qed.

Lemma exec_world_ok k w w' :
  world_ok w → exec k w = Done tt w' → world_ok w'.
Proof.
  intros Hok. destruct k as [b|e|r|p|sels|p|p]; simpl.
  - rewrite SetBundle_run //. intros [= <-]. by apply notified_world_ok.
  - rewrite SetEntry_run //. intros [= <-].
    by apply notified_world_ok, with_entry_ok.
  - unfold mbind, M_bind, bind, mret, M_ret, ret.
    destruct (cache (self w) !! common.EntryId r) as [e|] eqn:He.
    + rewrite (DeleteEntry_found r e) //. intros [= <-].
      by apply notified_world_ok, without_entry_ok.
    + rewrite DeleteEntry_missing //. by intros [= <-].
  - destruct (objs w !! p) as [s|] eqn:Hp.
    + rewrite Subscribe_run //; [|apply Hok]. intros Heq.
      assert (w' = notified (Some [p]) (with_sub p w)) as -> by congruence.
      by apply notified_world_ok, with_sub_ok.
    + by rewrite Subscribe_dangling.
  - unfold Consumer.NewSubscriber, mbind, M_bind, bind, mret, M_ret, ret.
    intros [= <-]. destruct Hok as (Hk & Hs & Hr). split_and!; simpl.
    + done.
    + apply map_Forall_insert_2; [|done]. split_and!; simpl; [done|done|lia].
    + rewrite dom_insert_L. set_solver.
  - unfold Consumer.deactivate, mbind, M_bind, bind, load, store, modify.
    destruct (objs w !! p) as [s|] eqn:Hp; [|done]. intros [= <-].
    destruct Hok as (Hk & Hs & Hr). split_and!; simpl.
    + done.
    + apply map_Forall_insert_2; [|done]. simpl. by eapply Hs.
    + rewrite dom_insert_L. set_solver.
  - unfold Consumer.receive, mbind, M_bind, bind, load, store, modify.
    destruct (objs w !! p) as [s|] eqn:Hp; [|done].
    destruct (ch_buf (c s)) as [|u rest] eqn:Hb; [done|]. simpl.
    intros [= <-]. destruct Hok as (Hk & Hs & Hr). split_and!; simpl.
    + done.
    + apply map_Forall_insert_2; [|done]. simpl.
      destruct (Hs p s Hp) as (Hc & Ho & Hl). rewrite Hb in Hl. simpl in Hl.
      split_and!; simpl; [done|done|lia].
    + rewrite dom_insert_L. set_solver.
Qed.

Lemma steps_world_ok ks w w' : world_ok w → steps ks w w' → world_ok w'.
Proof.
  intros Hok Hst. induction Hst as [|k ks w w1 w2 Hk _ IHs]; [done|].
  apply IHs. by eapply exec_world_ok.
Qed.

(** A call that does not store under [id] does not bring [id] back. *)
Lemma exec_keeps_absent id k w w' :
  world_ok w → exec k w = Done tt w' → ¬ sets_id id k →
  cache (self w) !! id = None → cache (self w') !! id = None.
Proof.
  intros Hok. destruct k as [b|e|r|p|sels|p|p]; simpl.
  - rewrite SetBundle_run //. intros [= <-] _ Hid. by rewrite notified_cache.
  - rewrite SetEntry_run //. intros [= <-] Hne Hid. rewrite notified_cache.
    simpl. by rewrite lookup_insert_ne.
  - unfold mbind, M_bind, bind, mret, M_ret, ret.
    destruct (cache (self w) !! common.EntryId r) as [e|] eqn:He.
    + rewrite (DeleteEntry_found r e) //. intros [= <-] _ Hid.
      rewrite notified_cache. simpl.
      rewrite lookup_delete. case_decide; done.
    + rewrite DeleteEntry_missing //. by intros [= <-].
  - destruct (objs w !! p) as [s|] eqn:Hp.
    + rewrite Subscribe_run //; [|apply Hok]. intros Heq _ Hid.
      assert (w' = notified (Some [p]) (with_sub p w)) as -> by congruence.
      by rewrite notified_cache.
    + by rewrite Subscribe_dangling.
  - unfold Consumer.NewSubscriber, mbind, M_bind, bind, mret, M_ret, ret.
    by intros [= <-].
  - unfold Consumer.deactivate, mbind, M_bind, bind, load, store, modify.
    destruct (objs w !! p) as [s|] eqn:Hp; [|done]. by intros [= <-].
  - unfold Consumer.receive, mbind, M_bind, bind, load, store, modify.
    destruct (objs w !! p) as [s|] eqn:Hp; [|done].
    destruct (ch_buf (c s)) as [|u rest] eqn:Hb; [done|]. simpl.
    by intros [= <-].
Qed.

Lemma steps_keep_absent id ks w w' :
  world_ok w → steps ks w w' → Forall (λ k, ¬ sets_id id k) ks →
  cache (self w) !! id = None → cache (self w') !! id = None.
Proof.
  intros Hok Hst. induction Hst as [|k ks w w1 w2 Hk _ IHs]; [done|].
  intros [Hn Hns]%Forall_cons Hid. apply IHs; [|done|].
  - by eapply exec_world_ok.
  - by eapply exec_keeps_absent.
Qed.

Lemma New_world_ok b o h :
  subs_ok o → world_ok (World (Cache.New b) o h).
Proof.
  intros Ho. split_and!; simpl; [|done|set_solver].
  apply map_Forall_empty.
Qed.

Lemma steps_for_each ks w w' :
  steps ks w w' ↔ for_each exec ks w = Done tt w'.
Proof.
  revert w. induction ks as [|k ks IHk]; intros w; simpl.
  - split; [by inversion 1|]. intros [= <-]. constructor.
  - unfold mbind, M_bind, bind. split.
    + inversion 1 as [|? ? ? w1 ? Hk Hks]; subst. rewrite Hk. by apply IHk.
    + destruct (exec k w) as [[] w1| |] eqn:Hk; [|done..].
      intros Hks%IHk. by econstructor.
Qed.

(** Every state reached from a new cache, with no subscriber allocated
    yet, is well formed. *)
Lemma reachable_world_ok b h ks w :
  steps ks (World (Cache.New b) ∅ h) w → world_ok w.
Proof.
  apply steps_world_ok, New_world_ok, map_Forall_empty.
Qed.

(** ** The scenarios of the design document *)

(** An entry with selectors {a}, then a subscriber with {a, b}: the
    channel holds the entry. *)
Example scenario_subscribe :
  (w ← after [CallSetEntry ex_E1;
              CallNewSubscriber [("unix", "a"); ("unix", "b")];
              CallSubscribe 1%positive] ex_start;
   pending w 1%positive)
  = Some [([ex_E1], [])].
Proof. vm_compute. reflexivity. Qed.

(** Then a bundle rotation: one combined update, nothing stale left. *)
Example scenario_subscribe_then_rotate :
  (w ← after [CallSetEntry ex_E1;
              CallNewSubscriber [("unix", "a"); ("unix", "b")];
              CallSubscribe 1%positive;
              CallSetBundle (Slice (Some 7%positive) 0 1)] ex_start;
   pending w 1%positive)
  = Some [([ex_E1], ["cert1"])].
Proof. vm_compute. reflexivity. Qed.

(** Two subscribers with {a} and {x} that have drained their initial
    update; an entry with selectors {a} reaches the first only. *)
Example scenario_two_subscribers :
  (w ← after [CallNewSubscriber [("unix", "a")];
              CallNewSubscriber [("unix", "x")];
              CallSubscribe 1%positive; CallSubscribe 2%positive;
              CallReceive 1%positive; CallReceive 2%positive;
              CallSetEntry ex_E1] ex_start;
   Some (pending w 1%positive, pending w 2%positive))
  = Some (Some [([ex_E1], [])], Some []).
Proof. vm_compute. reflexivity. Qed.

(** Deactivation alone leaves the subscriber registered. *)
Example scenario_deactivate :
  (w ← after [CallNewSubscriber [("unix", "a")];
              CallSubscribe 1%positive;
              CallDeactivate 1%positive] ex_start;
   Some (elements (subscribers (self w))))
  = Some [1%positive].
Proof. vm_compute. reflexivity. Qed.

(** An inactive subscriber is dropped by the pass that meets it and gets
    nothing. *)
Example scenario_inactive :
  (w ← after [CallNewSubscriber [("unix", "a")];
              CallSubscribe 1%positive; CallReceive 1%positive;
              CallDeactivate 1%positive;
              CallSetEntry ex_E1] ex_start;
   Some (pending w 1%positive, elements (subscribers (self w))))
  = Some (Some [], []).
Proof. vm_compute. reflexivity. Qed.

(** ** The properties of the design document *)

(** C1 (visibility correctness).  In a pass over the targets [l], every
    active target [p] ends with exactly one update [u] in its channel.  The
    entries of [u] are entries of the store, and an entry [e] of the store
    is among them if and only if the selector set of the subscriber
    includes the selector set of [e]; this test holds exactly when every
    selector of [e] is one of the subscriber's selectors, a condition on
    membership alone: the order of the selectors and their repetitions on
    either side are irrelevant, and empty selector lists are covered. *)
Theorem C1_visibility_correctness l w p s k e :
  subs_ok (objs w) → targets_ok l w →
  p ∈ l → objs w !! p = Some s → active s = true →
  cache (self w) !! k = Some e →
  ∃ w' s' u,
    Cache.notifySubscribers (Some l) w = Done tt w' ∧
    objs w' !! p = Some s' ∧ ch_buf (c s') = [u] ∧
    (∀ e', e' ∈ Entries u → ∃ k', cache (self w) !! k' = Some e') ∧
    (e ∈ Entries u ↔
       selector.IncludesSet
         (selector.NewSetFromRaw (sel s))
         (selector.NewSetFromRaw (common.Selectors (RegistrationEntry e)))
       = true) ∧
    (selector.IncludesSet
       (selector.NewSetFromRaw (sel s))
       (selector.NewSetFromRaw (common.Selectors (RegistrationEntry e)))
     = true ↔
     ∀ x, x ∈ common.Selectors (RegistrationEntry e) → x ∈ sel s).
Proof.
  intros Hok Ht Hin Hp Ha He.
  exists (notified (Some l) w),
    (delivered (snapshot_entries w) (snapshot_bundle w) s),
    (mkWorkloadUpdate (subscriberEntries s (snapshot_entries w))
                      (snapshot_bundle w)).
  split_and!.
  - apply notifySubscribers_notified; [done|]. by intros l' [= <-].
  - by apply notified_active.
  - done.
  - simpl. intros e' [He' _]%elem_of_subscriberEntries.
    by apply elem_of_snapshot_entries.
  - simpl. rewrite elem_of_subscriberEntries elem_of_snapshot_entries.
    split; [by intros [_ ?]|]. intros ?. split; [by exists k|done].
  - apply covers_spec.
Qed.

Lemma C1_visibility_correctness_witness :
  ∃ w' s' u,
    Cache.notifySubscribers (Some [1%positive]) ex_world = Done tt w' ∧
    objs w' !! 1%positive = Some s' ∧ ch_buf (c s') = [u] ∧
    (∀ e', e' ∈ Entries u → ∃ k', cache (self ex_world) !! k' = Some e') ∧
    (ex_E1 ∈ Entries u ↔
       selector.IncludesSet
         (selector.NewSetFromRaw (sel ex_sub))
         (selector.NewSetFromRaw (common.Selectors (RegistrationEntry ex_E1)))
       = true) ∧
    (selector.IncludesSet
       (selector.NewSetFromRaw (sel ex_sub))
       (selector.NewSetFromRaw (common.Selectors (RegistrationEntry ex_E1)))
     = true ↔
     ∀ x, x ∈ common.Selectors (RegistrationEntry ex_E1) → x ∈ sel ex_sub).
Proof.
  apply (C1_visibility_correctness
           [1%positive] ex_world 1%positive ex_sub "E1" ex_E1).
  - by_compute.
  - by_compute.
  - by_compute.
  - reflexivity.
  - reflexivity.
  - reflexivity.
Defined.

(** C2 (single-slot supersede, non-blocking delivery).  From a well-formed
    state a pass over allocated targets returns: it neither blocks on a
    send nor panics.  Whatever an active target's channel held before, it
    is afterwards a one-slot open channel holding the fresh update alone.
    Along any sequence of calls of the writer and steps of the consumers,
    no subscriber's channel ever holds more than one update. *)
Theorem C2_single_slot_supersede l w :
  world_ok w → targets_ok l w →
  (∃ w', Cache.notifySubscribers (Some l) w = Done tt w' ∧
     ∀ p s, p ∈ l → objs w !! p = Some s → active s = true →
       ∃ es b s',
         Cache.Entries w = Done es w ∧
         objs w' !! p = Some s' ∧
         c s' = Chan [mkWorkloadUpdate (subscriberEntries s es) b] 1 false) ∧
  (∀ ks w', steps ks w w' →
     ∀ p s, objs w' !! p = Some s → length (ch_buf (c s)) ≤ 1).
Proof.
  intros Hok Ht. split.
  - exists (notified (Some l) w). split.
    + apply notifySubscribers_notified; [apply Hok|]. by intros l' [= <-].
    + intros p s Hin Hp Ha.
      exists (snapshot_entries w), (snapshot_bundle w),
        (delivered (snapshot_entries w) (snapshot_bundle w) s).
      split_and!; [done| |done]. by apply notified_active.
  - intros ks w' Hst p s Hp.
    destruct (steps_world_ok ks w w' Hok Hst) as (_ & Hs & _).
    by destruct (Hs p s Hp) as (_ & _ & Hl).
Qed.

Lemma C2_single_slot_supersede_witness :
  (∃ w', Cache.notifySubscribers (Some [1%positive; 1%positive]) ex_world
         = Done tt w' ∧
     ∀ p s, p ∈ [1%positive; 1%positive] →
       objs ex_world !! p = Some s → active s = true →
       ∃ es b s',
         Cache.Entries ex_world = Done es ex_world ∧
         objs w' !! p = Some s' ∧
         c s' = Chan [mkWorkloadUpdate (subscriberEntries s es) b] 1 false) ∧
  (∀ ks w', steps ks ex_world w' →
     ∀ p s, objs w' !! p = Some s → length (ch_buf (c s)) ≤ 1).
Proof.
  apply (C2_single_slot_supersede [1%positive; 1%positive] ex_world).
  - by_compute.
  - by_compute.
Defined.

(** C3 (initial push on subscribe).  For an allocated, active subscriber
    [p], [Subscribe p] returns; [p] is then registered and its channel
    holds exactly one update.  The entries of that update are what
    [Entries()] returned, filtered by [subscriberEntries] for this
    subscriber: an entry is among them if and only if it is stored in the
    cache and every one of its selectors is a selector of the subscriber.
    The bundle of the update reads as the cache's trust bundle.  (The
    channel need not be empty beforehand: a pending update is
    superseded.) *)
Theorem C3_initial_push p s w :
  subs_ok (objs w) → objs w !! p = Some s → active s = true →
  ∃ w' s' u es,
    Cache.Subscribe p w = Done tt w' ∧
    p ∈ subscribers (self w') ∧
    objs w' !! p = Some s' ∧ ch_buf (c s') = [u] ∧
    Cache.Entries w = Done es w ∧
    Entries u = subscriberEntries s es ∧
    (∀ e, e ∈ Entries u ↔
          (∃ k, cache (self w) !! k = Some e) ∧
          ∀ x, x ∈ common.Selectors (RegistrationEntry e) → x ∈ sel s) ∧
    slice_read (arrs w') (Bundle u) = slice_read (arrs w) (bundle (self w)).
Proof.
  intros Hok Hp Ha.
  exists (notified (Some [p]) (with_sub p w)),
    (delivered (snapshot_entries w) (snapshot_bundle w) s),
    (mkWorkloadUpdate (subscriberEntries s (snapshot_entries w))
                      (snapshot_bundle w)),
    (snapshot_entries w).
  split_and!.
  - by apply Subscribe_run.
  - apply (notified_subscribers (Some [p]) (with_sub p w)).
    split; [simpl; set_solver|].
    intros (l & _ & _ & Hi). unfold is_inactive in Hi. simpl in Hi.
    by rewrite Hp Ha in Hi.
  - apply (notified_active [p] (with_sub p w)); [set_solver|done..].
  - done.
  - done.
  - done.
  - intros e. simpl.
    by rewrite elem_of_subscriberEntries elem_of_snapshot_entries covers_spec.
  - simpl. rewrite pass_one_arrs. apply append_nil_read.
Qed.

Lemma C3_initial_push_witness :
  ∃ w' s' u es,
    Cache.Subscribe 1%positive ex_world = Done tt w' ∧
    1%positive ∈ subscribers (self w') ∧
    objs w' !! 1%positive = Some s' ∧ ch_buf (c s') = [u] ∧
    Cache.Entries ex_world = Done es ex_world ∧
    Entries u = subscriberEntries ex_sub es ∧
    (∀ e, e ∈ Entries u ↔
          (∃ k, cache (self ex_world) !! k = Some e) ∧
          ∀ x, x ∈ common.Selectors (RegistrationEntry e) → x ∈ sel ex_sub) ∧
    slice_read (arrs w') (Bundle u)
    = slice_read (arrs ex_world) (bundle (self ex_world)).
Proof.
  apply (C3_initial_push 1%positive ex_sub ex_world).
  - by_compute.
  - reflexivity.
  - reflexivity.
Defined.

Lemma absent_no_entry w id e :
  keys_ok (cache (self w)) → cache (self w) !! id = None →
  e ∈ snapshot_entries w → common.EntryId (RegistrationEntry e) ≠ id.
Proof.
  intros Hk Hid [k He]%elem_of_snapshot_entries Heq.
  specialize (Hk k e He). simpl in Hk. congruence.
Qed.

(** C4 (deletion consistency).  When [DeleteEntry] returns true, [Entry]
    for that identifier returns nil, [Entries()] contains no entry with
    that identifier (in particular not the deleted one), the updates that
    the pass of [DeleteEntry] itself delivered contain none, and after any
    further calls that do not store under this identifier again, every
    pass returns and delivers to its active targets updates that contain
    none. *)
Theorem C4_deletion_consistency r w w' :
  world_ok w → Cache.DeleteEntry r w = Done true w' →
  Cache.Entry r w' = Done None w' ∧
  (∃ es, Cache.Entries w' = Done es w' ∧
     (∀ e, e ∈ es → common.EntryId (RegistrationEntry e) ≠ common.EntryId r) ∧
     (∀ e0, cache (self w) !! common.EntryId r = Some e0 → e0 ∉ es)) ∧
  (∀ e0 l p s,
     cache (self w) !! common.EntryId r = Some e0 →
     subs_for (common.Selectors (RegistrationEntry e0)) w = Some l →
     p ∈ l → objs w !! p = Some s → active s = true →
     ∃ s' u, objs w' !! p = Some s' ∧ ch_buf (c s') = [u] ∧
       ∀ e, e ∈ Entries u →
         common.EntryId (RegistrationEntry e) ≠ common.EntryId r) ∧
  (∀ ks w1 l,
     steps ks w' w1 → Forall (λ k, ¬ sets_id (common.EntryId r) k) ks →
     targets_ok l w1 →
     ∃ w2, Cache.notifySubscribers (Some l) w1 = Done tt w2 ∧
       ∀ p s, p ∈ l → objs w1 !! p = Some s → active s = true →
         ∃ s' u, objs w2 !! p = Some s' ∧ ch_buf (c s') = [u] ∧
           ∀ e, e ∈ Entries u →
             common.EntryId (RegistrationEntry e) ≠ common.EntryId r).
Proof.
  intros Hok Hdel.
  destruct (cache (self w) !! common.EntryId r) as [e0|] eqn:He0;
    last by rewrite DeleteEntry_missing in Hdel.
  rewrite (DeleteEntry_found r e0) // in Hdel.
  set (subs := subs_for (common.Selectors (RegistrationEntry e0)) w) in *.
  set (w0 := without_entry (common.EntryId r) w) in *.
  assert (w' = notified subs w0) as -> by congruence. clear Hdel.
  assert (world_ok w0) as Hok0 by by apply without_entry_ok.
  assert (world_ok (notified subs w0)) as Hok' by by apply notified_world_ok.
  assert (cache (self w0) !! common.EntryId r = None) as Habs0
    by apply lookup_delete_eq.
  assert (cache (self (notified subs w0)) !! common.EntryId r = None) as Habs.
  { by rewrite notified_cache. }
  split_and!.
  - unfold Cache.Entry, gets. by rewrite Habs.
  - exists (snapshot_entries (notified subs w0)). split_and!; [done| |].
    + intros e He. eapply absent_no_entry; [apply Hok'|done..].
    + intros e1 [= <-] He.
      eapply (absent_no_entry _ (common.EntryId r) e0); [apply Hok'|done..|].
      destruct Hok as (Hk & _). by apply (Hk _ _ He0).
  - intros e1 l p s [= <-] Hl Hin Hp Ha. fold subs in Hl. rewrite Hl.
    eexists _, _. split_and!.
    + by apply (notified_active l w0).
    + done.
    + simpl. intros e [He _]%elem_of_subscriberEntries.
      eapply absent_no_entry; [apply Hok0|done..].
  - intros ks w1 l Hst Hns Ht.
    assert (world_ok w1) as Hok1 by by eapply steps_world_ok.
    assert (cache (self w1) !! common.EntryId r = None) as Habs1
      by by apply (steps_keep_absent _ ks (notified subs w0) w1).
    exists (notified (Some l) w1). split.
    + apply notifySubscribers_notified; [apply Hok1|]. by intros l' [= <-].
    + intros p s Hin Hp Ha. eexists _, _. split_and!.
      * by apply notified_active.
      * done.
      * simpl. intros e [He _]%elem_of_subscriberEntries.
        eapply absent_no_entry; [apply Hok1|done..].
Qed.

Lemma C4_deletion_consistency_witness :
  ∃ w', Cache.DeleteEntry (RegistrationEntry ex_E1) ex_world = Done true w' ∧
        Cache.Entry (RegistrationEntry ex_E1) w' = Done None w'.
Proof.
  eexists. split; [vm_compute; reflexivity|].
  eapply (C4_deletion_consistency (RegistrationEntry ex_E1) ex_world).
  - by_compute.
  - vm_compute; reflexivity.
Defined.

(** The entries of a store that carry a given identifier: under the
    invariant, exactly the one stored under it. *)
Lemma entries_under_id (m : gmap string Entry) id e :
  keys_ok m → m !! id = Some e →
  filter (λ x, common.EntryId (RegistrationEntry x) = id) (map_to_list m).*2
  = [e].
Proof.
  intros Hk He. apply Permutation_singleton_r.
  rewrite -(map_to_list_delete m id e He). rewrite fmap_cons. simpl.
  rewrite filter_cons_True; [|by apply (Hk _ _ He)].
  apply Permutation_skip.
  assert (filter (λ x, common.EntryId (RegistrationEntry x) = id)
            (map_to_list (delete id m)).*2 = []) as ->; [|done].
  apply elem_of_nil_inv. intros x [Heq Hx]%list_elem_of_filter.
  apply list_elem_of_fmap in Hx as [[k x'] [-> Hx%elem_of_map_to_list]].
  simpl in *. apply lookup_delete_Some in Hx as [Hne Hx].
  apply Hne. rewrite -Heq. by apply (Hk _ _ Hx).
Qed.

(** C5 (idempotent overwrite).  Two [SetEntry] calls with the same
    identifier both return; the store is then the original one with the
    second entry put under that identifier, so [Entry] finds the second
    entry, [Entries()] lists exactly one entry with that identifier, the
    second, and what is stored under any other identifier is unchanged. *)
Theorem C5_idempotent_overwrite e1 e2 w :
  world_ok w →
  common.EntryId (RegistrationEntry e1) = common.EntryId (RegistrationEntry e2) →
  ∃ w1 w2 es,
    Cache.SetEntry e1 w = Done tt w1 ∧
    Cache.SetEntry e2 w1 = Done tt w2 ∧
    cache (self w2)
      = <[common.EntryId (RegistrationEntry e2) := e2]> (cache (self w)) ∧
    Cache.Entry (RegistrationEntry e2) w2 = Done (Some e2) w2 ∧
    Cache.Entries w2 = Done es w2 ∧
    filter (λ x, common.EntryId (RegistrationEntry x)
                 = common.EntryId (RegistrationEntry e2)) es = [e2] ∧
    (∀ k, k ≠ common.EntryId (RegistrationEntry e2) →
          cache (self w2) !! k = cache (self w) !! k) ∧
    size (cache (self w2))
      = size (<[common.EntryId (RegistrationEntry e2) := e2]> (cache (self w))).
Proof.
  intros Hok Hid.
  set (w1 := notified (subs_for (common.Selectors (RegistrationEntry e1))
                         (with_entry e1 w)) (with_entry e1 w)).
  set (w2 := notified (subs_for (common.Selectors (RegistrationEntry e2))
                         (with_entry e2 w1)) (with_entry e2 w1)).
  assert (world_ok w1) as Hok1 by by apply notified_world_ok, with_entry_ok.
  assert (world_ok w2) as Hok2 by by apply notified_world_ok, with_entry_ok.
  assert (cache (self w2)
          = <[common.EntryId (RegistrationEntry e2) := e2]> (cache (self w)))
    as Hc.
  { unfold w2. rewrite notified_cache. simpl. unfold w1.
    rewrite notified_cache. simpl. rewrite Hid. apply insert_insert_eq. }
  exists w1, w2, (snapshot_entries w2). split_and!.
  - by apply SetEntry_run.
  - by apply SetEntry_run.
  - done.
  - unfold Cache.Entry, gets. by rewrite Hc lookup_insert_eq.
  - done.
  - apply entries_under_id; [apply Hok2|]. by rewrite Hc lookup_insert_eq.
  - intros k Hk. by rewrite Hc lookup_insert_ne.
  - by rewrite Hc.
Qed.

Lemma C5_idempotent_overwrite_witness :
  ∃ w1 w2 es,
    Cache.SetEntry ex_E1 ex_world = Done tt w1 ∧
    Cache.SetEntry ex_E1' w1 = Done tt w2 ∧
    cache (self w2) = <["E1" := ex_E1']> (cache (self ex_world)) ∧
    Cache.Entry (RegistrationEntry ex_E1') w2 = Done (Some ex_E1') w2 ∧
    Cache.Entries w2 = Done es w2 ∧
    filter (λ x, common.EntryId (RegistrationEntry x) = "E1") es = [ex_E1'] ∧
    (∀ k, k ≠ "E1" → cache (self w2) !! k = cache (self ex_world) !! k) ∧
    size (cache (self w2)) = size (<["E1" := ex_E1']> (cache (self ex_world))).
Proof.
  apply (C5_idempotent_overwrite ex_E1 ex_E1' ex_world).
  - by_compute.
  - reflexivity.
Defined.

(** C6 (delete of a missing identifier).  When nothing is stored under the
    identifier, [DeleteEntry] returns false and the whole state is
    unchanged: the store, the bundle, the registry and every subscriber's
    channel. *)
Theorem C6_delete_missing r w :
  cache (self w) !! common.EntryId r = None →
  Cache.DeleteEntry r w = Done false w.
Proof. apply DeleteEntry_missing. Qed.

Lemma C6_delete_missing_witness :
  Cache.DeleteEntry (common.mkRegistrationEntry [("unix", "a")] "" "E9") ex_world
  = Done false ex_world.
Proof.
  apply (C6_delete_missing
           (common.mkRegistrationEntry [("unix", "a")] "" "E9") ex_world).
  vm_compute. reflexivity.
Defined.

(** C7 (bundle rotation notifies everyone).  [SetBundle b] returns; the
    bundle field is then [b] itself, with the contents [b] had, whatever
    the previous bundle was; [Bundle()] then returns these contents; and
    every registered active subscriber's channel holds exactly one update,
    whose bundle reads as [b]. *)
Theorem C7_bundle_rotation b w :
  world_ok w →
  ∃ w',
    Cache.SetBundle b w = Done tt w' ∧
    bundle (self w') = b ∧
    slice_read (arrs w') b = slice_read (arrs w) b ∧
    (∃ r w'', Cache.Bundle w' = Done r w'' ∧
              slice_read (arrs w'') r = slice_read (arrs w) b) ∧
    ∀ p s, p ∈ subscribers (self w) → objs w !! p = Some s → active s = true →
      ∃ s' u, objs w' !! p = Some s' ∧ ch_buf (c s') = [u] ∧
              slice_read (arrs w') (Bundle u) = slice_read (arrs w) b.
Proof.
  intros Hok. set (w0 := with_bundle b w).
  exists (notified (all_subs w0) w0).
  assert (bundle (self (notified (all_subs w0) w0)) = b) as Hb
    by by rewrite notified_bundle.
  assert (slice_read (arrs (notified (all_subs w0) w0)) b
          = slice_read (arrs w) b) as Hread.
  { destruct (all_subs w0) as [l|]; simpl; [|done].
    rewrite pass_arrs. simpl. apply append_nil_keeps. }
  split_and!.
  - by apply SetBundle_run.
  - done.
  - done.
  - unfold Cache.Bundle. rewrite Hb.
    destruct (append_nil _ b) as [h r] eqn:Happ. eexists _, _. split; [done|].
    simpl. rewrite -Hread.
    change h with (h, r).1. change r with (h, r).2 at 2. rewrite -Happ.
    apply append_nil_read.
  - intros p s Hin Hp Ha.
    destruct (all_subs w0) as [l|] eqn:Hl.
    + assert (p ∈ l) as Hpl.
      { unfold all_subs in Hl. rewrite (go_slice_elem _ _ _ Hl).
        by apply elem_of_elements. }
      eexists _, _. split_and!.
      * by apply (notified_active l w0).
      * done.
      * simpl. rewrite pass_arrs. simpl. apply append_nil_read.
    + unfold all_subs in Hl. simpl in Hl.
      destruct (elements (subscribers (self w))) as [|q qs] eqn:Hel; [|done].
      apply elements_empty_inv in Hel. set_solver.
Qed.

Lemma C7_bundle_rotation_witness :
  ∃ w',
    Cache.SetBundle ex_rotated ex_world = Done tt w' ∧
    bundle (self w') = ex_rotated ∧
    slice_read (arrs w') ex_rotated = slice_read (arrs ex_world) ex_rotated ∧
    (∃ r w'', Cache.Bundle w' = Done r w'' ∧
              slice_read (arrs w'') r = slice_read (arrs ex_world) ex_rotated) ∧
    ∀ p s, p ∈ subscribers (self ex_world) → objs ex_world !! p = Some s →
      active s = true →
      ∃ s' u, objs w' !! p = Some s' ∧ ch_buf (c s') = [u] ∧
              slice_read (arrs w') (Bundle u)
              = slice_read (arrs ex_world) ex_rotated.
Proof.
  apply (C7_bundle_rotation ex_rotated ex_world). by_compute.
Defined.

(** A step that runs no pass leaves the cache object as it is. *)
Lemma exec_without_pass k w w' :
  exec k w = Done tt w' → ¬ runs_pass k → self w' = self w.
Proof.
  destruct k as [b|e|r|p|sels|p|p]; simpl; try tauto; intros Heq _.
  - unfold Consumer.NewSubscriber, mbind, M_bind, bind, mret, M_ret, ret in Heq.
    by injection Heq as <-.
  - unfold Consumer.deactivate, mbind, M_bind, bind, load, store, modify in Heq.
    destruct (objs w !! p) as [s|]; [|done]. by injection Heq as <-.
  - unfold Consumer.receive, mbind, M_bind, bind, load, store, modify in Heq.
    destruct (objs w !! p) as [s|]; [|done].
    destruct (ch_buf (c s)) as [|u rest]; [done|]. simpl in Heq.
    by injection Heq as <-.
Qed.

(** C8 (lazy reclamation).  In every well-formed state:
    - a pass that targets an inactive subscriber removes it from the
      registry and leaves the subscriber object, and so its channel, as it
      was;
    - a pass removes from the registry only subscribers that are among
      its targets and that it finds inactive;
    - whenever any call removes a subscriber from the registry, that call
      is one that runs a pass and the subscriber was inactive already
      before the call;
    - deactivating a registered subscriber returns and leaves it
      registered, now inactive;
    - along any sequence of steps none of which runs a pass, deactivations
      included, the registry does not change. *)
Theorem C8_lazy_reclamation w :
  world_ok w →
  (∀ l p s, targets_ok l w →
     p ∈ l → objs w !! p = Some s → active s = false →
     ∃ w', Cache.notifySubscribers (Some l) w = Done tt w' ∧
           (p ∉ subscribers (self w')) ∧ objs w' !! p = Some s) ∧
  (∀ l w' q, targets_ok l w →
     Cache.notifySubscribers (Some l) w = Done tt w' →
     q ∈ subscribers (self w) → q ∉ subscribers (self w') →
     q ∈ l ∧ is_inactive (objs w) q = true) ∧
  (∀ k w' q, exec k w = Done tt w' →
     q ∈ subscribers (self w) → q ∉ subscribers (self w') →
     runs_pass k ∧ is_inactive (objs w) q = true) ∧
  (∀ q, q ∈ subscribers (self w) →
     ∃ w', Consumer.deactivate q w = Done tt w' ∧
           q ∈ subscribers (self w') ∧ is_inactive (objs w') q = true) ∧
  (∀ ks w', steps ks w w' → Forall (λ k, ¬ runs_pass k) ks →
     subscribers (self w') = subscribers (self w)).
Proof.
  intros Hok.
  assert (∀ subs w0 q,
    q ∈ subscribers (self w0) → q ∉ subscribers (self (notified subs w0)) →
    (∃ l, subs = Some l ∧ q ∈ l) ∧ is_inactive (objs w0) q = true) as Hrem.
  { intros subs w0 q Hq Hnq.
    destruct subs as [l|]; [|done].
    destruct (decide (q ∈ l)) as [Hql|Hql],
      (is_inactive (objs w0) q) eqn:Hi; try (split; [by eexists|done]);
      exfalso; apply Hnq, (notified_subscribers (Some l) w0);
      (split; [done|]); intros (l' & [= <-] & ? & ?); congruence. }
  split_and!.
  - intros l p s Ht Hin Hp Ha. exists (notified (Some l) w). split_and!.
    + apply notifySubscribers_notified; [apply Hok|]. by intros l' [= <-].
    + intros [_ Hn]%notified_subscribers. apply Hn. exists l.
      split_and!; [done..|]. unfold is_inactive. by rewrite Hp Ha.
    + apply notified_other; auto.
  - intros l w' q Ht Hrun Hq Hnq.
    rewrite notifySubscribers_notified in Hrun;
      [|apply Hok|by intros l' [= <-]].
    assert (w' = notified (Some l) w) as -> by congruence.
    destruct (Hrem (Some l) w q Hq Hnq) as [(l' & [= <-] & Hql) Hi]. done.
  - intros k w' q. destruct k as [b|e|r|q'|sels|q'|q']; simpl.
    + rewrite SetBundle_run //. intros Heq Hq Hnq. split; [done|].
      assert (w' = notified (all_subs (with_bundle b w)) (with_bundle b w))
        as -> by congruence.
      by apply Hrem in Hnq as [_ ?].
    + rewrite SetEntry_run //. intros Heq Hq Hnq. split; [done|].
      assert (w' = notified (subs_for (common.Selectors (RegistrationEntry e))
                               (with_entry e w)) (with_entry e w))
        as -> by congruence.
      by apply Hrem in Hnq as [_ ?].
    + unfold mbind, M_bind, bind, mret, M_ret, ret.
      destruct (cache (self w) !! common.EntryId r) as [e|] eqn:He.
      * rewrite (DeleteEntry_found r e) //. intros Heq Hq Hnq. split; [done|].
        assert (w' = notified (subs_for (common.Selectors (RegistrationEntry e)) w)
                        (without_entry (common.EntryId r) w))
          as -> by congruence.
        by apply Hrem in Hnq as [_ ?].
      * rewrite DeleteEntry_missing //. intros Heq Hq Hnq.
        assert (w' = w) as -> by congruence. done.
    + destruct (objs w !! q') as [s'|] eqn:Hq'.
      * rewrite Subscribe_run //; [|apply Hok]. intros Heq Hq Hnq.
        split; [done|].
        assert (w' = notified (Some [q']) (with_sub q' w)) as -> by congruence.
        apply Hrem in Hnq as [_ ?]; [done|]. simpl. set_solver.
      * by rewrite Subscribe_dangling.
    + intros Heq Hq Hnq. exfalso. apply Hnq.
      rewrite (exec_without_pass (CallNewSubscriber sels) w w' Heq); [done|simpl; tauto].
    + intros Heq Hq Hnq. exfalso. apply Hnq.
      rewrite (exec_without_pass (CallDeactivate q') w w' Heq); [done|simpl; tauto].
    + intros Heq Hq Hnq. exfalso. apply Hnq.
      rewrite (exec_without_pass (CallReceive q') w w' Heq); [done|simpl; tauto].
  - intros q Hq. destruct Hok as (_ & _ & Hr).
    pose proof (Hr q Hq) as Hd. apply elem_of_dom in Hd as [s Hs].
    unfold Consumer.deactivate, mbind, M_bind, bind, load, store, modify.
    rewrite Hs. eexists. split_and!; [done|done|].
    unfold is_inactive. simpl. by rewrite lookup_insert_eq.
  - intros ks w' Hst. clear Hok Hrem.
    induction Hst as [|k ks w w1 w2 Hk _ IHs]; [done|].
    intros [Hn Hns]%Forall_cons. rewrite IHs //.
    by rewrite (exec_without_pass k w w1).
Qed.

Lemma C8_lazy_reclamation_witness :
  ∃ w', Cache.notifySubscribers (Some [2%positive]) ex_world = Done tt w' ∧
        (2%positive ∉ subscribers (self w')) ∧
        objs w' !! 2%positive = Some ex_gone.
Proof.
  assert (world_ok ex_world) as Hok by by_compute.
  apply (proj1 (C8_lazy_reclamation ex_world Hok)
           [2%positive] 2%positive ex_gone).
  - by_compute.
  - by_compute.
  - reflexivity.
  - reflexivity.
Defined.

(** C9 (the bundle read is a defensive copy).  [Bundle()] returns, changes
    nothing of the cache or the subscribers, and its result reads
    element for element as the stored bundle; when not nil it sits in a
    backing array that did not exist before the call.  Every index of the
    stored bundle can be assigned in the result, and after any such
    assignment the stored bundle reads as before and a later [Bundle()]
    returns the original contents. *)
Theorem C9_bundle_defensive_copy w :
  ∃ r w',
    Cache.Bundle w = Done r w' ∧
    self w' = self w ∧ objs w' = objs w ∧
    slice_read (arrs w') r = slice_read (arrs w) (bundle (self w)) ∧
    (∀ l, base r = Some l → arrs w !! l = None) ∧
    (∀ i v, i < length (slice_read (arrs w) (bundle (self w))) →
            is_Some (slice_write (arrs w') r i v)) ∧
    ∀ i v h, slice_write (arrs w') r i v = Some h →
      slice_read h (bundle (self w)) = slice_read (arrs w) (bundle (self w)) ∧
      ∃ r2 w2, Cache.Bundle (World (self w') (objs w') h) = Done r2 w2 ∧
               slice_read (arrs w2) r2
               = slice_read (arrs w) (bundle (self w)).
Proof.
  unfold Cache.Bundle.
  destruct (append_nil (arrs w) (bundle (self w))) as [h' r] eqn:Happ.
  exists r, (World (self w) (objs w) h'). simpl.
  pose proof (append_nil_read (arrs w) (bundle (self w))) as Hread.
  pose proof (append_nil_fresh (arrs w) (bundle (self w))) as Hfresh.
  pose proof (append_nil_keeps (arrs w) (bundle (self w))) as Hkeep.
  rewrite Happ in Hread, Hfresh, Hkeep. simpl in *.
  split_and!; try done.
  - intros i v Hi. unfold slice_write.
    unfold append_nil in Happ.
    destruct (slice_read (arrs w) (bundle (self w))) as [|x xs] eqn:Hr;
      simpl in Hi; [lia|].
    injection Happ as <- <-. simpl. rewrite decide_True //.
    by rewrite lookup_insert_eq.
  - intros i v h Hw.
    assert (slice_read h (bundle (self w))
            = slice_read (arrs w) (bundle (self w))) as Hsame.
    { unfold slice_write in Hw. case_decide as Hi; [|done].
      destruct (base r) as [l|] eqn:Hb; [|done].
      destruct (h' !! l) as [a|] eqn:Ha; [|done]. injection Hw as <-.
      rewrite -Hkeep. unfold slice_read.
      destruct (base (bundle (self w))) as [l0|] eqn:Hb0; [|done].
      destruct (decide (l0 = l)) as [->|Hne].
      - (* the stored bundle cannot live in the array of the copy *)
        exfalso. specialize (Hfresh l eq_refl).
        unfold append_nil in Happ.
        destruct (slice_read (arrs w) (bundle (self w))) as [|x xs] eqn:Hr.
        + injection Happ as <- <-. done.
        + unfold slice_read in Hr. rewrite Hb0 Hfresh in Hr. done.
      - by rewrite lookup_insert_ne. }
    split; [done|].
    destruct (append_nil h (bundle (self w))) as [h2 r2] eqn:Happ2.
    eexists _, _. split; [done|]. simpl. rewrite -Hsame.
    change h2 with (h2, r2).1. change r2 with (h2, r2).2 at 2.
    rewrite -Happ2. apply append_nil_read.
Qed.

(** C10 (emptiness consistency).  [IsEmpty()] returns true exactly when
    [Entries()] returns the empty sequence, and a cache made by [New] is
    empty. *)
Theorem C10_emptiness_consistency w :
  (∃ b es, Cache.IsEmpty w = Done b w ∧ Cache.Entries w = Done es w ∧
           (b = true ↔ es = [])) ∧
  (∀ bundle o h,
     Cache.IsEmpty (World (Cache.New bundle) o h)
     = Done true (World (Cache.New bundle) o h)).
Proof.
  split.
  - eexists _, _. split_and!; [done..|].
    rewrite bool_decide_eq_true map_size_empty_iff. split.
    + by intros ->.
    + intros Hnil%fmap_nil_inv. by apply map_to_list_empty_iff.
  - done.
Qed.

(** ** Further properties of cache.go *)

Lemma notified_arrs subs w : arrs w ⊆ arrs (notified subs w).
Proof.
  destruct subs; simpl; [|done]. rewrite pass_arrs. apply append_nil_subseteq.
Qed.

Lemma world_eta w : World (self w) (objs w) (arrs w) = w.
Proof. by destruct w. Qed.

(** X1 (store, then look up).  [SetEntry] returns; afterwards [Entry] for
    the entry's registration entry finds exactly this entry, [Entries()]
    lists it, and the cache is not empty. *)
Theorem X1_set_then_lookup e w :
  world_ok w →
  ∃ w' es,
    Cache.SetEntry e w = Done tt w' ∧
    Cache.Entry (RegistrationEntry e) w' = Done (Some e) w' ∧
    Cache.Entries w' = Done es w' ∧ e ∈ es ∧
    Cache.IsEmpty w' = Done false w'.
Proof.
  intros Hok.
  set (w' := notified (subs_for (common.Selectors (RegistrationEntry e))
                         (with_entry e w)) (with_entry e w)).
  assert (cache (self w')
          = <[common.EntryId (RegistrationEntry e) := e]> (cache (self w)))
    as Hc by by rewrite /w' notified_cache.
  exists w', (snapshot_entries w'). split_and!.
  - by apply SetEntry_run.
  - unfold Cache.Entry, gets. by rewrite Hc lookup_insert_eq.
  - done.
  - apply elem_of_snapshot_entries.
    exists (common.EntryId (RegistrationEntry e)). by rewrite Hc lookup_insert_eq.
  - unfold Cache.IsEmpty, gets. f_equal. apply bool_decide_eq_false.
    rewrite Hc. apply map_size_non_empty_iff, insert_non_empty.
Qed.

Lemma X1_set_then_lookup_witness :
  ∃ w' es,
    Cache.SetEntry ex_E1' ex_world = Done tt w' ∧
    Cache.Entry (RegistrationEntry ex_E1') w' = Done (Some ex_E1') w' ∧
    Cache.Entries w' = Done es w' ∧ ex_E1' ∈ es ∧
    Cache.IsEmpty w' = Done false w'.
Proof. apply (X1_set_then_lookup ex_E1' ex_world). by_compute. Defined.

(** X2 (store, then delete).  [SetEntry] followed by [DeleteEntry] for the
    same registration entry returns true and leaves the store as the
    original one without that identifier; when the identifier was not
    stored before, the store is exactly the original one.  The lookup then
    finds nothing. *)
Theorem X2_set_then_delete e w :
  world_ok w →
  ∃ w1 w2,
    Cache.SetEntry e w = Done tt w1 ∧
    Cache.DeleteEntry (RegistrationEntry e) w1 = Done true w2 ∧
    cache (self w2)
      = delete (common.EntryId (RegistrationEntry e)) (cache (self w)) ∧
    (cache (self w) !! common.EntryId (RegistrationEntry e) = None →
     cache (self w2) = cache (self w)) ∧
    Cache.Entry (RegistrationEntry e) w2 = Done None w2.
Proof.
  intros Hok.
  set (id := common.EntryId (RegistrationEntry e)).
  set (w1 := notified (subs_for (common.Selectors (RegistrationEntry e))
                         (with_entry e w)) (with_entry e w)).
  assert (world_ok w1) as Hok1 by by apply notified_world_ok, with_entry_ok.
  assert (cache (self w1) = <[id := e]> (cache (self w))) as Hc1
    by by rewrite /w1 notified_cache.
  assert (cache (self w1) !! id = Some e) as He
    by by rewrite Hc1 lookup_insert_eq.
  set (w2 := notified (subs_for (common.Selectors (RegistrationEntry e)) w1)
                      (without_entry id w1)).
  assert (cache (self w2) = delete id (cache (self w))) as Hc2.
  { rewrite /w2 notified_cache. simpl. rewrite Hc1. apply delete_insert_eq. }
  exists w1, w2. split_and!.
  - by apply SetEntry_run.
  - by apply (DeleteEntry_found (RegistrationEntry e) e).
  - done.
  - intros Hnone. rewrite Hc2. by apply delete_id.
  - unfold Cache.Entry, gets. fold id. by rewrite Hc2 lookup_delete_eq.
Qed.

Lemma X2_set_then_delete_witness :
  ∃ w1 w2,
    Cache.SetEntry ex_E1 ex_start = Done tt w1 ∧
    Cache.DeleteEntry (RegistrationEntry ex_E1) w1 = Done true w2 ∧
    cache (self w2) = delete "E1" (cache (self ex_start)) ∧
    (cache (self ex_start) !! "E1" = None →
     cache (self w2) = cache (self ex_start)) ∧
    Cache.Entry (RegistrationEntry ex_E1) w2 = Done None w2.
Proof. apply (X2_set_then_delete ex_E1 ex_start). by_compute. Defined.

(** X3 (deleting twice).  When [DeleteEntry] has returned true, a second
    [DeleteEntry] for the same identifier returns false and changes
    nothing.  The first one removed one entry: the store is one smaller,
    what is stored under other identifiers is unchanged, and so is the
    bundle. *)
Theorem X3_delete_twice r w w' :
  world_ok w → Cache.DeleteEntry r w = Done true w' →
  Cache.DeleteEntry r w' = Done false w' ∧
  S (size (cache (self w'))) = size (cache (self w)) ∧
  (∀ k, k ≠ common.EntryId r → cache (self w') !! k = cache (self w) !! k) ∧
  bundle (self w') = bundle (self w).
Proof.
  intros Hok Hdel.
  destruct (cache (self w) !! common.EntryId r) as [e0|] eqn:He0;
    last by rewrite DeleteEntry_missing in Hdel.
  rewrite (DeleteEntry_found r e0) // in Hdel.
  set (subs := subs_for (common.Selectors (RegistrationEntry e0)) w) in *.
  set (w0 := without_entry (common.EntryId r) w) in *.
  assert (w' = notified subs w0) as -> by congruence. clear Hdel.
  assert (cache (self (notified subs w0))
          = delete (common.EntryId r) (cache (self w))) as Hc
    by by rewrite notified_cache.
  split_and!.
  - apply DeleteEntry_missing. by rewrite Hc lookup_delete_eq.
  - rewrite Hc map_size_delete He0.
    assert (size (cache (self w)) ≠ 0) as Hne.
    { apply map_size_non_empty_iff. intros Hempty.
      by rewrite Hempty lookup_empty in He0. }
    simpl. lia.
  - intros k Hk. by rewrite Hc lookup_delete_ne.
  - by rewrite notified_bundle.
Qed.

Lemma X3_delete_twice_witness :
  ∃ w', Cache.DeleteEntry (RegistrationEntry ex_E2) ex_world = Done true w' ∧
        Cache.DeleteEntry (RegistrationEntry ex_E2) w' = Done false w'.
Proof.
  eexists. split; [vm_compute; reflexivity|].
  eapply (X3_delete_twice (RegistrationEntry ex_E2) ex_world).
  - by_compute.
  - vm_compute; reflexivity.
Defined.

(** X4 (only the identifier of the argument counts).  [Entry] and
    [DeleteEntry] read nothing of their argument but its [EntryId]: two
    registration entries with the same identifier give the same result
    and the same state, whatever their selectors; the subscribers that
    [DeleteEntry] notifies are those of the stored entry's selectors. *)
Theorem X4_argument_by_identifier r r' w :
  common.EntryId r = common.EntryId r' →
  Cache.Entry r w = Cache.Entry r' w ∧
  Cache.DeleteEntry r w = Cache.DeleteEntry r' w.
Proof.
  intros Hid. unfold Cache.Entry, Cache.DeleteEntry. by rewrite Hid.
Qed.

Lemma X4_argument_by_identifier_witness :
  Cache.Entry (RegistrationEntry ex_E1) ex_world
  = Cache.Entry (common.mkRegistrationEntry [] "" "E1") ex_world ∧
  Cache.DeleteEntry (RegistrationEntry ex_E1) ex_world
  = Cache.DeleteEntry (common.mkRegistrationEntry [] "" "E1") ex_world.
Proof.
  apply (X4_argument_by_identifier
           (RegistrationEntry ex_E1) (common.mkRegistrationEntry [] "" "E1")
           ex_world).
  reflexivity.
Defined.

(** X5 (listing and lookup agree).  When every entry is stored under its
    own identifier, [Entries()] lists as many entries as the store holds
    identifiers, no two of them with the same identifier, and [Entry]
    finds an entry for a registration entry exactly when [Entries()]
    lists it and it carries that identifier. *)
Theorem X5_listing_and_lookup w :
  keys_ok (cache (self w)) →
  ∃ es,
    Cache.Entries w = Done es w ∧
    length es = size (cache (self w)) ∧
    NoDup ((λ e, common.EntryId (RegistrationEntry e)) <$> es) ∧
    ∀ r e, Cache.Entry r w = Done (Some e) w ↔
           e ∈ es ∧ common.EntryId (RegistrationEntry e) = common.EntryId r.
Proof.
  intros Hk. exists (snapshot_entries w). split_and!.
  - done.
  - unfold snapshot_entries. by rewrite length_fmap length_map_to_list.
  - unfold snapshot_entries. rewrite -list_fmap_compose.
    assert ((λ e, common.EntryId (RegistrationEntry e)) ∘ snd
              <$> map_to_list (cache (self w))
            = (map_to_list (cache (self w))).*1) as ->.
    { apply Forall_fmap_ext, Forall_forall. intros [k e] Hin. simpl.
      apply elem_of_map_to_list in Hin. by apply (Hk _ _ Hin). }
    apply NoDup_fst_map_to_list.
  - intros r e. unfold Cache.Entry, gets. rewrite elem_of_snapshot_entries.
    split.
    + intros [= He]. split; [by eexists|]. by apply (Hk _ _ He).
    + intros [[k He] Hid]. f_equal.
      assert (k = common.EntryId r) as <-; [|done].
      rewrite -Hid. symmetry. by apply (Hk _ _ He).
Qed.

Lemma X5_listing_and_lookup_witness :
  ∃ es,
    Cache.Entries ex_world = Done es ex_world ∧
    length es = size (cache (self ex_world)) ∧
    NoDup ((λ e, common.EntryId (RegistrationEntry e)) <$> es) ∧
    ∀ r e, Cache.Entry r ex_world = Done (Some e) ex_world ↔
           e ∈ es ∧ common.EntryId (RegistrationEntry e) = common.EntryId r.
Proof. apply (X5_listing_and_lookup ex_world). by_compute. Defined.

Lemma slice_read_write h (s : slice) l a i v :
  base s = Some l → h !! l = Some a → i < len s →
  slice_read (<[l := <[off s + i := v]> a]> h) s = <[i := v]> (slice_read h s).
Proof.
  intros Hb Ha Hi. unfold slice_read. rewrite Hb Ha lookup_insert_eq.
  rewrite drop_insert_ge; [|lia].
  replace (off s + i - off s) with i by lia.
  by rewrite take_insert_lt.
Qed.

(** X6 (the bundle is stored, not copied).  [SetBundle] keeps the caller's
    slice itself: when the caller afterwards assigns an element through
    that slice, the stored bundle changes with it, and [Bundle()] returns
    the changed contents. *)
Theorem X6_set_bundle_keeps_callers_slice b l a i v w :
  world_ok w → base b = Some l → arrs w !! l = Some a → i < len b →
  ∃ w' h r w'',
    Cache.SetBundle b w = Done tt w' ∧
    slice_write (arrs w') b i v = Some h ∧
    Cache.Bundle (World (self w') (objs w') h) = Done r w'' ∧
    slice_read (arrs w'') r = <[i := v]> (slice_read (arrs w) b).
Proof.
  intros Hok Hb Ha Hi. set (w0 := with_bundle b w).
  set (w' := notified (all_subs w0) w0).
  assert (arrs w' !! l = Some a) as Ha'.
  { eapply lookup_weaken; [exact Ha|]. apply (notified_arrs (all_subs w0) w0). }
  assert (bundle (self w') = b) as Hbun by by rewrite /w' notified_bundle.
  set (h := <[l := <[off b + i := v]> a]> (arrs w')).
  destruct (append_nil h b) as [h2 r] eqn:Happ.
  exists w', h, r, (World (self w') (objs w') h2). split_and!.
  - by apply SetBundle_run.
  - unfold slice_write. rewrite decide_True // Hb Ha'. done.
  - unfold Cache.Bundle. simpl. by rewrite Hbun Happ.
  - simpl. change h2 with (h2, r).1. change r with (h2, r).2 at 2.
    rewrite -Happ append_nil_read. unfold h.
    rewrite slice_read_write //. f_equal.
    unfold slice_read. by rewrite Hb Ha Ha'.
Qed.

Lemma X6_set_bundle_keeps_callers_slice_witness :
  ∃ w' h r w'',
    Cache.SetBundle ex_rotated ex_world = Done tt w' ∧
    slice_write (arrs w') ex_rotated 0 "forged" = Some h ∧
    Cache.Bundle (World (self w') (objs w') h) = Done r w'' ∧
    slice_read (arrs w'') r
    = <[0 := "forged"]> (slice_read (arrs ex_world) ex_rotated).
Proof.
  apply (X6_set_bundle_keeps_callers_slice
           ex_rotated 7%positive ["root-1"; "root-2"] 0 "forged" ex_world).
  - by_compute.
  - reflexivity.
  - reflexivity.
  - vm_compute. lia.
Defined.

(** X7 (one copy of the bundle per pass).  The updates that one pass
    delivers to two of its active targets carry the very same slice: the
    copy made once at the start of the pass.  When not nil, that slice
    sits in an array that did not exist before the pass, so it is not the
    array of the stored bundle. *)
Theorem X7_pass_shares_one_copy l w p q sp sq :
  subs_ok (objs w) → targets_ok l w →
  p ∈ l → objs w !! p = Some sp → active sp = true →
  q ∈ l → objs w !! q = Some sq → active sq = true →
  ∃ w' sp' sq' up uq,
    Cache.notifySubscribers (Some l) w = Done tt w' ∧
    objs w' !! p = Some sp' ∧ ch_buf (c sp') = [up] ∧
    objs w' !! q = Some sq' ∧ ch_buf (c sq') = [uq] ∧
    Bundle up = Bundle uq ∧
    ∀ a, base (Bundle up) = Some a → arrs w !! a = None.
Proof.
  intros Hok Ht Hp Hsp Hap Hq Hsq Haq.
  exists (notified (Some l) w),
    (delivered (snapshot_entries w) (snapshot_bundle w) sp),
    (delivered (snapshot_entries w) (snapshot_bundle w) sq).
  eexists _, _. split_and!.
  - apply notifySubscribers_notified; [done|]. by intros l' [= <-].
  - by apply notified_active.
  - done.
  - by apply notified_active.
  - done.
  - done.
  - simpl. apply append_nil_fresh.
Qed.

Lemma X7_pass_shares_one_copy_witness :
  ∃ w' sp' sq' up uq,
    Cache.notifySubscribers (Some [1%positive; 3%positive]) ex_world2
    = Done tt w' ∧
    objs w' !! 1%positive = Some sp' ∧ ch_buf (c sp') = [up] ∧
    objs w' !! 3%positive = Some sq' ∧ ch_buf (c sq') = [uq] ∧
    Bundle up = Bundle uq ∧
    ∀ a, base (Bundle up) = Some a → arrs ex_world2 !! a = None.
Proof.
  apply (X7_pass_shares_one_copy
           [1%positive; 3%positive] ex_world2 1%positive 3%positive
           ex_sub ex_peer).
  - by_compute.
  - by_compute.
  - by_compute.
  - reflexivity.
  - reflexivity.
  - by_compute.
  - reflexivity.
  - reflexivity.
Defined.

Lemma touch_sel_active entries b l q s :
  sel (touch entries b l q s) = sel s ∧
  active (touch entries b l q s) = active s.
Proof. unfold touch. by repeat case_match. Qed.

Lemma touch_ext entries b l l' q s :
  (q ∈ l ↔ q ∈ l') → touch entries b l q s = touch entries b l' q s.
Proof. intros Hl. unfold touch. by rewrite (decide_ext _ _ _ _ Hl). Qed.

(** X8 (the order of the targets is irrelevant).  For one snapshot of
    entries and bundle, the loop of a pass run over two target lists with
    the same members, in any order and with any repetitions, returns in
    both cases, with the same registry and, for every subscriber, the
    same selectors, the same active flag and the same updates pending in
    the channel it then holds.  Which channel object that is is not
    compared: a target listed twice has its channel replaced on the
    second visit. *)
Theorem X8_pass_ignores_target_order entries b l l' w :
  subs_ok (objs w) → targets_ok l w → (∀ p, p ∈ l ↔ p ∈ l') →
  ∃ w1 w2,
    for_each (Cache.notifyOne entries b) l w = Done tt w1 ∧
    for_each (Cache.notifyOne entries b) l' w = Done tt w2 ∧
    subscribers (self w1) = subscribers (self w2) ∧
    ∀ p, (λ s, (ch_buf (c s), sel s, active s)) <$> objs w1 !! p
         = (λ s, (ch_buf (c s), sel s, active s)) <$> objs w2 !! p.
Proof.
  intros Hok Ht Hl.
  assert (∀ p, p ∈ l' → is_Some (objs w !! p)) as Ht'.
  { intros p Hp%Hl. revert p Hp. by apply targets_ok_spec. }
  exists (pass entries b l w), (pass entries b l' w). split_and!.
  - apply for_each_pass; [done|]. by apply targets_ok_spec.
  - by apply for_each_pass.
  - apply set_eq. intros q. rewrite !pass_subscribers. by rewrite Hl.
  - intros p. rewrite !pass_objs.
    destruct (objs w !! p) as [s|]; simpl; [|done].
    by rewrite (touch_ext entries b l l' p s (Hl p)).
Qed.

Lemma X8_pass_ignores_target_order_witness :
  ∃ w1 w2,
    for_each (Cache.notifyOne [ex_E1] nil_slice)
             [1%positive; 2%positive; 3%positive] ex_world2 = Done tt w1 ∧
    for_each (Cache.notifyOne [ex_E1] nil_slice)
             [3%positive; 2%positive; 3%positive; 1%positive] ex_world2
    = Done tt w2 ∧
    subscribers (self w1) = subscribers (self w2) ∧
    ∀ p, (λ s, (ch_buf (c s), sel s, active s)) <$> objs w1 !! p
         = (λ s, (ch_buf (c s), sel s, active s)) <$> objs w2 !! p.
Proof.
  apply (X8_pass_ignores_target_order
           [ex_E1] nil_slice [1%positive; 2%positive; 3%positive]
           [3%positive; 2%positive; 3%positive; 1%positive] ex_world2).
  - by_compute.
  - by_compute.
  - intros p. rewrite !elem_of_cons !elem_of_nil. tauto.
Defined.

(** X9 (what a pass leaves alone).  A pass never changes the entry store
    or the bundle field, never adds a subscriber to the registry, and
    keeps every array it found.  It neither creates nor drops subscriber
    objects; of each subscriber it keeps the selectors and the active
    flag, and a subscriber that is not among the targets is left exactly
    as it was. *)
Theorem X9_pass_frame l w :
  subs_ok (objs w) → targets_ok l w →
  ∃ w',
    Cache.notifySubscribers (Some l) w = Done tt w' ∧
    cache (self w') = cache (self w) ∧
    bundle (self w') = bundle (self w) ∧
    subscribers (self w') ⊆ subscribers (self w) ∧
    arrs w ⊆ arrs w' ∧
    dom (objs w') = dom (objs w) ∧
    ∀ p s, objs w !! p = Some s →
      ∃ s', objs w' !! p = Some s' ∧
            sel s' = sel s ∧ active s' = active s ∧ (p ∉ l → s' = s).
Proof.
  intros Hok Ht. exists (notified (Some l) w). split_and!.
  - apply notifySubscribers_notified; [done|]. by intros ? [= <-].
  - apply (notified_cache (Some l)).
  - apply (notified_bundle (Some l)).
  - intros q Hq. by apply (notified_subscribers (Some l)) in Hq as [? _].
  - apply (notified_arrs (Some l)).
  - apply set_eq. intros q. rewrite !elem_of_dom.
    apply (pass_dom _ _ l (snapshot_world w)).
  - intros p s Hp. simpl. rewrite pass_objs. simpl. rewrite Hp. simpl.
    eexists. split_and!; [done|apply touch_sel_active..|].
    intros Hn. unfold touch. by rewrite decide_False.
Qed.

Lemma X9_pass_frame_witness :
  ∃ w',
    Cache.notifySubscribers (Some [1%positive]) ex_world = Done tt w' ∧
    cache (self w') = cache (self ex_world) ∧
    bundle (self w') = bundle (self ex_world) ∧
    subscribers (self w') ⊆ subscribers (self ex_world) ∧
    arrs ex_world ⊆ arrs w' ∧
    dom (objs w') = dom (objs ex_world) ∧
    ∀ p s, objs ex_world !! p = Some s →
      ∃ s', objs w' !! p = Some s' ∧
            sel s' = sel s ∧ active s' = active s ∧
            (p ∉ [1%positive] → s' = s).
Proof.
  apply (X9_pass_frame [1%positive] ex_world).
  - by_compute.
  - by_compute.
Defined.

(** X10 (subscribing an inactive subscriber).  [Subscribe] of a
    subscriber whose active flag is already false returns, delivers
    nothing to it, and leaves it out of the registry: the pass that
    follows the registration removes it again.  The membership of every
    other subscriber and the entry store are unchanged. *)
Theorem X10_subscribe_inactive p s w :
  subs_ok (objs w) → objs w !! p = Some s → active s = false →
  ∃ w',
    Cache.Subscribe p w = Done tt w' ∧
    (p ∉ subscribers (self w')) ∧
    objs w' !! p = Some s ∧
    (∀ q, q ≠ p → q ∈ subscribers (self w') ↔ q ∈ subscribers (self w)) ∧
    cache (self w') = cache (self w).
Proof.
  intros Hok Hp Ha. exists (notified (Some [p]) (with_sub p w)).
  assert (is_inactive (objs (with_sub p w)) p = true) as Hi.
  { unfold is_inactive. simpl. by rewrite Hp Ha. }
  split_and!.
  - by apply Subscribe_run.
  - intros [_ Hn]%(notified_subscribers (Some [p]) (with_sub p w)). apply Hn.
    exists [p]. split_and!; [done|set_solver|done].
  - apply (notified_other (Some [p]) (with_sub p w)); auto.
  - intros q Hq. rewrite (notified_subscribers (Some [p]) (with_sub p w)).
    simpl. split.
    + intros [Hin _]. set_solver.
    + intros Hin. split; [set_solver|].
      intros (l & [= <-] & Hql & _). set_solver.
  - apply (notified_cache (Some [p]) (with_sub p w)).
Qed.

Lemma X10_subscribe_inactive_witness :
  ∃ w',
    Cache.Subscribe 2%positive ex_world = Done tt w' ∧
    (2%positive ∉ subscribers (self w')) ∧
    objs w' !! 2%positive = Some ex_gone ∧
    (∀ q, q ≠ 2%positive →
          q ∈ subscribers (self w') ↔ q ∈ subscribers (self ex_world)) ∧
    cache (self w') = cache (self ex_world).
Proof.
  apply (X10_subscribe_inactive 2%positive ex_gone ex_world).
  - by_compute.
  - reflexivity.
  - reflexivity.
Defined.

(** X11 (the visible entries are a sub-sequence).  [subscriberEntries]
    returns a sub-sequence of the entries it is given, in their order;
    filtering its result again for the same subscriber changes nothing,
    and it works through a concatenation part by part. *)
Theorem X11_subscriberEntries_subsequence sub entries :
  subscriberEntries sub entries `sublist_of` entries ∧
  subscriberEntries sub (subscriberEntries sub entries)
  = subscriberEntries sub entries ∧
  ∀ more, subscriberEntries sub (entries ++ more)
          = subscriberEntries sub entries ++ subscriberEntries sub more.
Proof.
  split_and!.
  - induction entries as [|e rest IHr]; simpl; [done|].
    case_match; by constructor.
  - induction entries as [|e rest IHr]; simpl; [done|].
    destruct (selector.IncludesSet _ _) eqn:Hinc; simpl; [|done].
    by rewrite Hinc IHr.
  - intros more. induction entries as [|e rest IHr]; simpl; [done|].
    case_match; by rewrite IHr.
Qed.

(** X12 (an empty bundle is returned as nil).  [Bundle()] returns a slice
    at offset 0 as long as the stored bundle reads; the result is nil
    exactly when the stored bundle reads empty, also when that one is an
    empty window on an array, and then the state is unchanged. *)
Theorem X12_bundle_nil_iff_empty w :
  ∃ r w',
    Cache.Bundle w = Done r w' ∧
    off r = 0 ∧
    len r = length (slice_read (arrs w) (bundle (self w))) ∧
    (r = nil_slice ↔ slice_read (arrs w) (bundle (self w)) = []) ∧
    (r = nil_slice → w' = w).
Proof.
  unfold Cache.Bundle, append_nil.
  destruct (slice_read (arrs w) (bundle (self w))) as [|x xs] eqn:Hr.
  - exists nil_slice, (World (self w) (objs w) (arrs w)).
    split_and!; try done. intros _. apply world_eta.
  - eexists _, _. split_and!; try done.
Qed.

(** X13 (a new version reaches only the subscribers asked for).
    [SetEntry] runs its pass over the subscribers that the registry
    returns for the selectors of the new entry.  Every subscriber outside
    that answer is left exactly as it was, whatever update is pending in
    its channel, while the store already holds the new entry. *)
Theorem X13_set_entry_leaves_others e w subs p s :
  world_ok w →
  Subscribers.get (common.Selectors (RegistrationEntry e)) w = Done subs w →
  (∀ l, subs = Some l → p ∉ l) →
  objs w !! p = Some s →
  ∃ w',
    Cache.SetEntry e w = Done tt w' ∧
    objs w' !! p = Some s ∧
    cache (self w') !! common.EntryId (RegistrationEntry e) = Some e.
Proof.
  intros Hok Hget Hout Hp.
  assert (subs = subs_for (common.Selectors (RegistrationEntry e))
                          (with_entry e w)) as Hsubs.
  { unfold Subscribers.get, gets in Hget. by injection Hget as <-. }
  eexists. split_and!.
  - by apply SetEntry_run.
  - apply notified_other; [done|]. right. rewrite -Hsubs. apply Hout.
  - rewrite notified_cache. simpl. apply lookup_insert_eq.
Qed.

Lemma X13_set_entry_leaves_others_witness :
  ∃ w',
    Cache.SetEntry ex_E2 ex_world = Done tt w' ∧
    objs w' !! 1%positive = Some ex_sub ∧
    cache (self w') !! common.EntryId (RegistrationEntry ex_E2) = Some ex_E2.
Proof.
  apply (X13_set_entry_leaves_others
           ex_E2 ex_world (Some [2%positive]) 1%positive ex_sub).
  - by_compute.
  - vm_compute. reflexivity.
  - intros l [= <-]. by_compute.
  - reflexivity.
Defined.

(** X14 (entries are found under their own identifier).  In every state
    reached from a new cache by calls of the facade and steps of the
    consumers, an entry that [Entry] returns carries the identifier that
    was asked for. *)
Theorem X14_lookup_returns_the_identifier b h ks w r e :
  steps ks (World (Cache.New b) ∅ h) w →
  Cache.Entry r w = Done (Some e) w →
  common.EntryId (RegistrationEntry e) = common.EntryId r.
Proof.
  intros Hst%reachable_world_ok [= He]. destruct Hst as (Hk & _).
  by apply (Hk _ _ He).
Qed.

Lemma X14_lookup_returns_the_identifier_witness :
  common.EntryId (RegistrationEntry ex_E1')
  = common.EntryId (common.mkRegistrationEntry [] "" "E1").
Proof.
  apply (X14_lookup_returns_the_identifier
           nil_slice {[7%positive := ["cert1"]]}
           [CallSetEntry ex_E1; CallSetEntry ex_E2; CallSetEntry ex_E1']
           (World (mkCache {["E1" := ex_E1'; "E2" := ex_E2]} ∅ nil_slice)
                  ∅ {[7%positive := ["cert1"]]})
           (common.mkRegistrationEntry [] "" "E1") ex_E1').
  - apply steps_for_each. vm_compute. reflexivity.
  - vm_compute. reflexivity.
Defined.
